(** * RFC 6979 deterministic DSA / ECDSA nonces: a shallow embedding of
      [rfc6979.go], [dsa.go] and [ecdsa.go] and the properties of the
      octet/bit converters, the HMAC-DRBG candidate loop and the two signers.

    Conventions of the embedding.
    - [*big.Int] values are [Z]; a nil pointer is [None] where it can occur.
    - [[]byte] is [list byte] ([Stdlib.Strings.Byte]); [len] is [blen].
    - Go's [int] is modelled by [Z]: every [int] of the package is a slice
      length, a bit length or a small affine function of those, far inside
      the machine range, so no wrap-around can occur.
    - The infinite [for] loops take a [fuel]; running out of it is the
      distinguished status [Unfinished], never a result.
    - A run-time panic (nil dereference, division by zero, [make] with a
      negative length) is explicit: [None] for pure code, [Crash] /
      [Panicked] for the closure and the loop. *)

From Stdlib Require Import ZArith List Lia Bool.
From Stdlib Require Import Strings.Byte.
Import ListNotations.
Local Open Scope Z_scope.

(** ** Byte strings *)

Definition bytes := list byte.

Definition blen (b : bytes) : Z := Z.of_nat (length b).

Definition byte_val (b : byte) : Z := Z.of_N (Byte.to_N b).

Definition byte_of_Z (z : Z) : byte :=
  match Byte.of_N (Z.to_N (z mod 256)) with
  | Some b => b
  | None => x00
  end.

(** [make([]byte, n)]: [n] zero bytes, a panic when [n] is negative.
    The run-time also refuses a length beyond what can be allocated;
    that machine limit is not modelled, lengths are taken to be
    allocatable. *)
Definition make (n : Z) : option bytes :=
  if n <? 0 then None else Some (repeat x00 (Z.to_nat n)).

(** [bytes.Repeat([]byte{b}, n)] for the one-byte pattern used by the
    package; a negative count panics. As for [make], the allocation
    limit of the machine is not modelled. *)
Definition bytes_Repeat (b : byte) (n : Z) : option bytes :=
  if n <? 0 then None else Some (repeat b (Z.to_nat n)).

(** ** The part of [math/big] the package relies on *)

Module big.

(** [new(big.Int).SetBytes(buf)]: [buf] read as a big-endian unsigned
    integer. *)
Definition SetBytes (buf : bytes) : Z :=
  fold_left (fun acc b => acc * 256 + byte_val b) buf 0.

(** [x.BitLen()]: the length of the absolute value of [x] in bits, 0 for 0. *)
Definition BitLen (x : Z) : Z :=
  if x =? 0 then 0 else Z.log2 (Z.abs x) + 1.

Fixpoint Bytes_aux (fuel : nat) (n : Z) (acc : bytes) : bytes :=
  match fuel with
  | O => acc
  | S f => if n =? 0 then acc
           else Bytes_aux f (n / 256) (byte_of_Z (n mod 256) :: acc)
  end.

(** [x.Bytes()]: the absolute value of [x] as a big-endian byte slice
    without leading zero bytes (empty for 0). One digit is peeled per
    unit of fuel and a number has no more base-256 digits than bits. *)
Definition Bytes (x : Z) : bytes :=
  Bytes_aux (Z.to_nat (BitLen x)) (Z.abs x) [].

(** [new(big.Int).Rsh(x, n)] for an unsigned shift count [n]. *)
Definition Rsh (x : Z) (n : Z) : Z := Z.shiftr x n.

Definition Sub (x y : Z) : Z := x - y.
Definition Add (x y : Z) : Z := x + y.
Definition Mul (x y : Z) : Z := x * y.

(** [x.Sign()]: -1, 0 or +1. *)
Definition Sign (x : Z) : Z := Z.sgn x.

(** [x.Cmp(y)]: -1, 0 or +1. *)
Definition Cmp (x y : Z) : Z :=
  match x ?= y with
  | Lt => -1
  | Eq => 0
  | Gt => 1
  end.

(** [z.Mod(x, y)]: Euclidean modulus, in [[0, |y|)]; a division-by-zero
    panic for [y = 0]. *)
Definition Mod (x y : Z) : option Z :=
  if y =? 0 then None else Some (x mod Z.abs y).

End big.

(** Go's [/] on [int] truncates toward zero and [>>] on a signed [int] is
    an arithmetic shift. *)
Definition int_div (a b : Z) : Z := Z.quot a b.
Definition int_shr (a n : Z) : Z := Z.shiftr a n.
Definition int_and (a b : Z) : Z := Z.land a b.

(** ** Octet/bit converters ([rfc6979.go]) *)

(** RFC 6979 section 2.3.2. *)
Definition bits2int (in_ : bytes) (qlen : Z) : Z :=
  let vlen := blen in_ * 8 in
  let v := big.SetBytes in_ in
  if vlen >? qlen then big.Rsh v (vlen - qlen) else v.

(** [src[from:]], and [copy(dst[at:], src)], which overwrites as many
    bytes as the shorter of [dst[at:]] and [src] has. *)
Definition slice_from (src : bytes) (from : Z) : bytes :=
  skipn (Z.to_nat from) src.

Definition copy_at (dst : bytes) (at_ : Z) (src : bytes) : bytes :=
  let pre := firstn (Z.to_nat at_) dst in
  let room := skipn (Z.to_nat at_) dst in
  let n := Nat.min (length room) (length src) in
  pre ++ firstn n src ++ skipn n room.

(** RFC 6979 section 2.3.3. *)
Definition int2octets (v : Z) (rolen : Z) : option bytes :=
  let out := big.Bytes v in
  if blen out <? rolen then
    (* pad with zeros if it's too short *)
    match make rolen with
    | None => None
    | Some out2 => Some (copy_at out2 (rolen - blen out) out)
    end
  else if blen out >? rolen then
    (* drop most significant bytes if it's too long *)
    match make rolen with
    | None => None
    | Some out2 => Some (copy_at out2 0 (slice_from out (blen out - rolen)))
    end
  else Some out.

(** RFC 6979 section 2.3.4. *)
Definition bits2octets (in_ : bytes) (q : Z) (qlen rolen : Z) : option bytes :=
  let z1 := bits2int in_ qlen in
  let z2 := big.Sub z1 q in
  if big.Sign z2 <? 0 then int2octets z1 rolen else int2octets z2 rolen.

(** ** The deterministic secret generator ([rfc6979.go]) *)

(** A [HashAlgorithm] is used through [alg().Size()] and through the
    method [mac], HMAC keyed by [k] over [m]; the hash itself belongs to
    the caller. *)
Record HashAlgorithm : Type := {
  Size : Z;
  hmac : bytes -> bytes -> bytes
}.

Definition mac (alg : HashAlgorithm) (k m : bytes) : bytes := hmac alg k m.

(** What the callback [test] does with a candidate: it returns [true],
    returns [false], or panics. The variables it captures are the state
    [St], which survives each of the three. *)
Inductive verdict : Type := Accept | Reject | Crash.

(** How a run ends: the function returned, it panicked, or the fuel of
    the model ran out while the loop was still going. *)
Inductive status : Type := Returned | Panicked | Unfinished.

Section Generator.

Variable St : Type.

(** Step H2: the inner [for len(t) < qlen/8] loop; it yields the final
    [v] and [t]. *)
Fixpoint stepH2 (fuel : nat) (alg : HashAlgorithm) (k v t : bytes)
                (qlen : Z) : option (bytes * bytes) :=
  if blen t <? int_div qlen 8 then
    match fuel with
    | O => None
    | S f =>
        let v := mac alg k v in
        stepH2 f alg k v (t ++ v) qlen
    end
  else Some (v, t).

Inductive iteration : Type :=
| Stop (s : status) (st : St)
| Next (k v : bytes) (st : St).

(** The rest of a turn of the outer [for] loop once [secret] is
    decoded: the range check, the call of [test] (not reached when the
    range check fails, as [&&] evaluates left to right and stops at the
    first false operand) and the update of [k] and [v]. *)
Definition tryCandidate (alg : HashAlgorithm) (q : Z)
           (test : Z -> St -> verdict * St) (k v : bytes) (secret : Z)
           (st : St) : iteration :=
  let retry st :=
    let k := mac alg k (v ++ [x00]) in
    let v := mac alg k v in
    Next k v st in
  if (big.Cmp secret 1 >=? 0) && (big.Cmp secret q <? 0) then
    match test secret st with
    | (Accept, st) => Stop Returned st
    | (Crash, st) => Stop Panicked st
    | (Reject, st) => retry st
    end
  else retry st.

(** One turn of the outer [for] loop, from step H1 on. *)
Definition iterationH (inner : nat) (alg : HashAlgorithm) (q qlen : Z)
           (test : Z -> St -> verdict * St) (k v : bytes) (st : St)
  : iteration :=
  match stepH2 inner alg k v [] qlen with
  | None => Stop Unfinished st
  | Some (v, t) =>
      let secret := bits2int t qlen in
      tryCandidate alg q test k v secret st
  end.

Fixpoint loopH (fuel inner : nat) (alg : HashAlgorithm) (q qlen : Z)
         (test : Z -> St -> verdict * St) (k v : bytes) (st : St)
  : status * St :=
  match fuel with
  | O => (Unfinished, st)
  | S f =>
      match iterationH inner alg q qlen test k v st with
      | Stop s st => (s, st)
      | Next k v st => loopH f inner alg q qlen test k v st
      end
  end.

(** RFC 6979 section 3.2. The [(V, K)] state left by steps A to G. *)
Definition seed (q x : Z) (alg : HashAlgorithm) (hash : bytes)
  : option (bytes * bytes) :=
  (* Step A *)
  let qlen := big.BitLen q in
  let holen := Size alg in
  let rolen := int_shr (qlen + 7) 3 in
  (* Step B *)
  match bytes_Repeat x01 holen with
  | None => None
  | Some v =>
  (* Step C *)
  match bytes_Repeat x00 holen with
  | None => None
  | Some k =>
  (* Step D *)
  match int2octets x rolen with
  | None => None
  | Some b =>
  match bits2octets hash q qlen rolen with
  | None => None
  | Some bh =>
      let bx := b ++ bh in
      let k := mac alg k ((v ++ [x00]) ++ bx) in
      (* Step E *)
      let v := mac alg k v in
      (* Step F *)
      let k := mac alg k ((v ++ [x01]) ++ bx) in
      (* Step G *)
      let v := mac alg k v in
      Some (k, v)
  end end end end.

Definition generateSecret (fuel : nat) (q x : Z) (alg : HashAlgorithm)
           (hash : bytes) (test : Z -> St -> verdict * St) (st : St)
  : status * St :=
  match seed q x alg hash with
  | None => (Panicked, st)
  | Some (k, v) => loopH fuel fuel alg q (big.BitLen q) test k v st
  end.

End Generator.

Arguments Stop {St}.
Arguments Next {St}.
Arguments tryCandidate {St}.
Arguments iterationH {St}.
Arguments loopH {St}.
Arguments generateSecret {St}.

(** ** The signers ([dsa.go], [ecdsa.go]) *)

(** The named results [(r, s *big.Int, err error)]; all three start nil. *)
Inductive error : Type := ErrInvalidPublicKey.

Record signature : Type := {
  sig_r : option Z;
  sig_s : option Z;
  sig_err : option error
}.

(** The variables [r] and [s] that both closures capture and assign. *)
Definition rs : Type := (option Z * option Z)%type.

(** [crypto/dsa]'s [PrivateKey], flattened. *)
Record dsa_PrivateKey : Type := {
  P : Z;
  Q : Z;
  G : Z;
  Y : Z;
  X : Z
}.

(** The interface [elliptic.Curve], as far as the package calls it:
    [Params().N] and [ScalarBaseMult], whose results are pointers and may
    be nil. *)
Class Curve (C : Type) : Type := {
  Params_N : C -> Z;
  ScalarBaseMult : C -> bytes -> option Z * option Z
}.

(** [crypto/ecdsa]'s [PrivateKey], flattened. *)
Record ecdsa_PrivateKey (C : Type) : Type := {
  PublicKey_Curve : C;
  PublicKey_X : Z;
  PublicKey_Y : Z;
  D : Z
}.

Arguments PublicKey_Curve {C}.
Arguments PublicKey_X {C}.
Arguments PublicKey_Y {C}.
Arguments D {C}.

(** copied from crypto/ecdsa *)
Definition hashToInt {C} `{Curve C} (hash : bytes) (c : C) : Z :=
  let orderBits := big.BitLen (Params_N c) in
  let orderBytes := int_div (orderBits + 7) 8 in
  let hash := if blen hash >? orderBytes
              then firstn (Z.to_nat orderBytes) hash else hash in
  let ret := big.SetBytes hash in
  let excess := blen hash * 8 - orderBits in
  if excess >? 0 then big.Rsh ret excess else ret.

Section Signers.

(** Group arithmetic of [math/big] that the closures call and whose
    values no property below depends on. [ModInverse g n] is nil when
    [g] has no inverse modulo [n]; [Exp x y m] is [x**y mod |m|] and can
    be nil as well. *)
Variable ModInverse : Z -> Z -> option Z.
Variable Exp : Z -> Z -> Z -> option Z.

(** The closure handed to [generateSecret] by [SignDSA]. Each [match]
    on [None] is the panic of the Go statement at that point, with [r]
    and [s] as they are by then. *)
Definition dsa_test (priv : dsa_PrivateKey) (hash : bytes)
           (k : Z) (st : rs) : verdict * rs :=
  let s := snd st in
  let kInv := ModInverse k (Q priv) in
  let r := Exp (G priv) k (P priv) in
  match r with
  | None => (Crash, (r, s))
  | Some r0 =>
  match big.Mod r0 (Q priv) with
  | None => (Crash, (r, s))
  | Some r =>
      if big.Sign r =? 0 then (Reject, (Some r, s))
      else
        let z := big.SetBytes hash in
        let s := big.Mul (X priv) r in
        let s := big.Add s z in
        match big.Mod s (Q priv) with
        | None => (Crash, (Some r, Some s))
        | Some s =>
        match kInv with
        | None => (Crash, (Some r, Some s))
        | Some kInv =>
            let s := big.Mul s kInv in
            match big.Mod s (Q priv) with
            | None => (Crash, (Some r, Some s))
            | Some s =>
                (if negb (big.Sign s =? 0) then Accept else Reject,
                 (Some r, Some s))
            end
        end end
  end end.

Definition SignDSA (fuel : nat) (priv : dsa_PrivateKey) (hash : bytes)
           (alg : HashAlgorithm) : status * signature :=
  let n := big.BitLen (Q priv) in
  if negb (int_and n 7 =? 0) then
    (Returned,
     {| sig_r := None; sig_s := None; sig_err := Some ErrInvalidPublicKey |})
  else
    let n := int_shr n 3 in
    let '(fin, (r, s)) :=
      generateSecret fuel (Q priv) (X priv) alg hash
                     (dsa_test priv hash) (None, None) in
    (fin, {| sig_r := r; sig_s := s; sig_err := None |}).

Context {C : Type} `{Curve C}.

(** The closure handed to [generateSecret] by [SignECDSA]. *)
Definition ecdsa_test (priv : ecdsa_PrivateKey C) (hash : bytes)
           (k : Z) (st : rs) : verdict * rs :=
  let c := PublicKey_Curve priv in
  let N := Params_N c in
  let s := snd st in
  let inv := ModInverse k N in
  let r := fst (ScalarBaseMult (PublicKey_Curve priv) (big.Bytes k)) in
  match r with
  | None => (Crash, (r, s))
  | Some r0 =>
  match big.Mod r0 N with
  | None => (Crash, (r, s))
  | Some r =>
      if big.Sign r =? 0 then (Reject, (Some r, s))
      else
        let e := hashToInt hash c in
        let s := big.Mul (D priv) r in
        let s := big.Add s e in
        match inv with
        | None => (Crash, (Some r, Some s))
        | Some inv =>
            let s := big.Mul s inv in
            match big.Mod s N with
            | None => (Crash, (Some r, Some s))
            | Some s =>
                (if negb (big.Sign s =? 0) then Accept else Reject,
                 (Some r, Some s))
            end
        end
  end end.

Definition SignECDSA (fuel : nat) (priv : ecdsa_PrivateKey C)
           (hash : bytes) (alg : HashAlgorithm) : status * signature :=
  let c := PublicKey_Curve priv in
  let N := Params_N c in
  let '(fin, (r, s)) :=
    generateSecret fuel N (D priv) alg hash
                   (ecdsa_test priv hash) (None, None) in
  (fin, {| sig_r := r; sig_s := s; sig_err := None |}).

End Signers.

(** ** Definitions that follow the specification's wording *)

(** Step 6a of the specification, read literally: [V] after [n] rounds of
    [V = mac(K, V)], and [T], the concatenation of those [n] successive
    values of [V]. *)
Fixpoint spec_V (alg : HashAlgorithm) (k v : bytes) (n : nat) : bytes :=
  match n with
  | O => v
  | S n => spec_V alg k (mac alg k v) n
  end.

Fixpoint spec_T (alg : HashAlgorithm) (k v : bytes) (n : nat) : bytes :=
  match n with
  | O => []
  | S n => let v1 := mac alg k v in v1 ++ spec_T alg k v1 n
  end.

(** The number of rounds step 6a takes when every MAC output has [holen]
    bytes: the least [n] with [n * holen >= qlen/8]. *)
Definition spec_rounds (qlen holen : Z) : nat :=
  Z.to_nat ((Z.max 0 (int_div qlen 8) + holen - 1) / holen).

(** Step 6 of the specification's algorithm (section 4.2), in its words,
    for a MAC whose outputs have [holen] bytes: (a) [T] is built by
    [spec_rounds] rounds of [V = mac(K, V)], each appended to [T];
    (b) the candidate is [bits2int(T, qlen)]; (c) the run ends when
    [1 <= candidate < q] and the predicate accepts; (d) otherwise
    [K = mac(K, V || 0x00)], [V = mac(K, V)] and the loop repeats. *)
Fixpoint spec_loop {St : Type} (fuel : nat) (alg : HashAlgorithm)
         (q qlen holen : Z) (test : Z -> St -> verdict * St)
         (k v : bytes) (st : St) : status * St :=
  match fuel with
  | O => (Unfinished, st)
  | S f =>
      let n := spec_rounds qlen holen in
      let T := spec_T alg k v n in
      let V := spec_V alg k v n in
      let candidate := bits2int T qlen in
      let K' := mac alg k (V ++ [x00]) in
      let V' := mac alg K' V in
      if (1 <=? candidate) && (candidate <? q) then
        match test candidate st with
        | (Accept, st') => (Returned, st')
        | (Crash, st') => (Panicked, st')
        | (Reject, st') => spec_loop f alg q qlen holen test K' V' st'
        end
      else spec_loop f alg q qlen holen test K' V' st
  end.

(** A callback that also records, latest first, every candidate it is
    called on. It answers as [test] does and threads [test]'s own state. *)
Definition logged {St : Type} (test : Z -> St -> verdict * St)
  : Z -> St * list Z -> verdict * (St * list Z) :=
  fun k '(st, log) =>
    let '(v, st) := test k st in (v, (st, k :: log)).

(** A turn of the loop of the plain callback, with the log put back. *)
Definition with_log {St : Type} (log : list Z) (it : iteration St)
  : iteration (St * list Z) :=
  match it with
  | Stop s st => Stop s (st, log)
  | Next k v st => Next k v (st, log)
  end.

(** The range invariant of section 8. *)
Definition in_range (q k : Z) : Prop := 1 <= k < q.

(** The first step of [hashToInt]: [hash[:n]] when the hash is longer
    than [n] bytes, the hash itself otherwise. *)
Definition cut_hash (hash : bytes) (n : Z) : bytes :=
  if blen hash >? n then firstn (Z.to_nat n) hash else hash.

(** The callback that turns every candidate down and captures nothing. *)
Definition reject_all (k : Z) (st : unit) : verdict * unit := (Reject, st).

(** The candidate a finished run accepted: the last one [test] saw. *)
Definition accepted {St : Type} (fuel : nat) (q x : Z) (alg : HashAlgorithm)
           (hash : bytes) (test : Z -> St -> verdict * St) (st : St)
  : option Z :=
  match generateSecret fuel q x alg hash (logged test) (st, []) with
  | (Returned, (_, k :: _)) => Some k
  | _ => None
  end.

(** ** A small instance to run the definitions on

    A one-byte keyed checksum in place of HMAC, the subgroup of order 251
    of the integers modulo 503 for DSA, and a stand-in for a curve of
    order 251. They exercise the code paths; they are no cryptography. *)

Module Toy.

Definition alg : HashAlgorithm := {|
  Size := 1;
  hmac := fun k m =>
    [byte_of_Z (7 * big.SetBytes k + 31 * big.SetBytes m + 3 * blen m + 89)]
|}.

(** Size 0: the inner loop of step H2 cannot make progress. *)
Definition alg_empty : HashAlgorithm := {|
  Size := 0;
  hmac := fun _ _ => []
|}.

Definition ModInverse (g n : Z) : option Z :=
  find (fun i => (g * i) mod n =? 1)
       (map Z.of_nat (seq 0 (Z.to_nat (Z.abs n)))).

Definition Exp (x y m : Z) : option Z :=
  if m =? 0 then Some (x ^ y) else Some ((x ^ y) mod Z.abs m).

Definition dsa_key : dsa_PrivateKey :=
  {| P := 503; Q := 251; G := 4; Y := 4 ^ 7 mod 503; X := 7 |}.

(** A key whose subgroup order has 9 bits. *)
Definition dsa_key_unaligned : dsa_PrivateKey :=
  {| P := 607; Q := 303; G := 4; Y := 4 ^ 7 mod 607; X := 7 |}.

Inductive curve : Type := Curve251.

#[global] Instance curve_Curve : Curve curve := {|
  Params_N := fun _ => 251;
  ScalarBaseMult := fun _ k =>
    (Some (3 * big.SetBytes k + 1000), Some (5 * big.SetBytes k + 2))
|}.

Definition ecdsa_key : ecdsa_PrivateKey curve :=
  {| PublicKey_Curve := Curve251;
     PublicKey_X := 1021; PublicKey_Y := 37; D := 7 |}.

Definition digest : bytes := [x12; x34; x56].

(** A stand-in for a curve whose order, 7, has fewer than 8 bits. *)
Inductive tiny_curve : Type := Curve7.

#[global] Instance tiny_curve_Curve : Curve tiny_curve := {|
  Params_N := fun _ => 7;
  ScalarBaseMult := fun _ k =>
    (Some (3 * big.SetBytes k + 1), Some (big.SetBytes k))
|}.

End Toy.

(** * Properties *)

(** ** Bytes and big-endian numbers *)

Lemma byte_val_range (b : byte) : 0 <= byte_val b < 256.
Proof.
  unfold byte_val. pose proof (Byte.to_N_bounded b). lia.
Qed.

Lemma byte_val_of_Z (z : Z) : byte_val (byte_of_Z z) = z mod 256.
Proof.
  unfold byte_val, byte_of_Z.
  assert (Hr : 0 <= z mod 256 < 256) by (apply Z.mod_pos_bound; lia).
  destruct (Byte.of_N (Z.to_N (z mod 256))) as [b|] eqn:E.
  - apply Byte.to_of_N in E. rewrite E. lia.
  - apply Byte.of_N_None_iff in E. lia.
Qed.

Lemma byte_val_x00 : byte_val x00 = 0.
Proof. reflexivity. Qed.

Lemma byte_val_inj (a b : byte) : byte_val a = byte_val b -> a = b.
Proof.
  unfold byte_val. intros E.
  assert (E' : Byte.to_N a = Byte.to_N b) by lia.
  pose proof (Byte.of_to_N a) as Ha. pose proof (Byte.of_to_N b) as Hb.
  rewrite E' in Ha. congruence.
Qed.

Lemma blen_nonneg (l : bytes) : 0 <= blen l.
Proof. unfold blen. lia. Qed.

Lemma blen_app (a b : bytes) : blen (a ++ b) = blen a + blen b.
Proof. unfold blen. rewrite length_app. lia. Qed.

Lemma blen_cons (x : byte) (l : bytes) : blen (x :: l) = 1 + blen l.
Proof. unfold blen. simpl length. lia. Qed.

Lemma blen_repeat (x : byte) (n : nat) : blen (repeat x n) = Z.of_nat n.
Proof. unfold blen. now rewrite repeat_length. Qed.

Lemma SetBytes_fold (l : bytes) (a : Z) :
  fold_left (fun acc b => acc * 256 + byte_val b) l a
  = a * 256 ^ blen l + big.SetBytes l.
Proof.
  unfold big.SetBytes. revert a.
  induction l as [|x l IH]; intros a.
  - simpl. unfold blen. simpl. lia.
  - simpl fold_left. rewrite IH. rewrite (IH (byte_val x)).
    rewrite blen_cons.
    rewrite Z.pow_add_r by (pose proof (blen_nonneg l); lia).
    lia.
Qed.

Lemma SetBytes_nil : big.SetBytes [] = 0.
Proof. reflexivity. Qed.

Lemma SetBytes_cons (x : byte) (l : bytes) :
  big.SetBytes (x :: l) = byte_val x * 256 ^ blen l + big.SetBytes l.
Proof.
  unfold big.SetBytes at 1. simpl fold_left. now rewrite SetBytes_fold.
Qed.

Lemma SetBytes_app (a b : bytes) :
  big.SetBytes (a ++ b) = big.SetBytes a * 256 ^ blen b + big.SetBytes b.
Proof.
  unfold big.SetBytes at 1. rewrite fold_left_app.
  fold (big.SetBytes a). apply SetBytes_fold.
Qed.

Lemma SetBytes_range (l : bytes) : 0 <= big.SetBytes l < 256 ^ blen l.
Proof.
  induction l as [|x l IH].
  - rewrite SetBytes_nil. unfold blen. simpl. lia.
  - rewrite SetBytes_cons, blen_cons.
    pose proof (byte_val_range x). pose proof (blen_nonneg l).
    rewrite Z.pow_add_r by lia. nia.
Qed.

Lemma SetBytes_zeros (n : nat) : big.SetBytes (repeat x00 n) = 0.
Proof.
  induction n as [|n IH]; [reflexivity|].
  simpl repeat. rewrite SetBytes_cons, IH, byte_val_x00. lia.
Qed.

Lemma SetBytes_pad (n : nat) (l : bytes) :
  big.SetBytes (repeat x00 n ++ l) = big.SetBytes l.
Proof. rewrite SetBytes_app, SetBytes_zeros. lia. Qed.

(** Dropping the [n] leading bytes reduces modulo [256^(len - n)];
    keeping them divides by it. *)
Lemma SetBytes_skipn (n : nat) (l : bytes) :
  big.SetBytes (skipn n l) = big.SetBytes l mod 256 ^ blen (skipn n l).
Proof.
  rewrite <- (firstn_skipn n l) at 2.
  rewrite SetBytes_app.
  pose proof (SetBytes_range (skipn n l)).
  rewrite Z.add_comm, Z.mod_add by lia.
  now rewrite Z.mod_small.
Qed.

Lemma SetBytes_firstn (n : nat) (l : bytes) :
  big.SetBytes (firstn n l) = big.SetBytes l / 256 ^ blen (skipn n l).
Proof.
  rewrite <- (firstn_skipn n l) at 2.
  rewrite SetBytes_app.
  pose proof (SetBytes_range (skipn n l)).
  rewrite Z.div_add_l by lia.
  rewrite (Z.div_small (big.SetBytes (skipn n l))) by lia. lia.
Qed.

Lemma BitLen_nonneg (x : Z) : 0 <= big.BitLen x.
Proof.
  unfold big.BitLen. destruct (x =? 0); [lia|].
  pose proof (Z.log2_nonneg (Z.abs x)). lia.
Qed.

Lemma BitLen_bounds (x : Z) :
  x <> 0 -> 2 ^ (big.BitLen x - 1) <= Z.abs x < 2 ^ big.BitLen x.
Proof.
  intros Hx. unfold big.BitLen.
  destruct (Z.eqb_spec x 0) as [|_]; [contradiction|].
  assert (Hp : 0 < Z.abs x) by lia.
  pose proof (Z.log2_spec _ Hp) as H.
  replace (Z.log2 (Z.abs x) + 1 - 1) with (Z.log2 (Z.abs x)) by lia.
  replace (Z.log2 (Z.abs x) + 1) with (Z.succ (Z.log2 (Z.abs x))) by lia.
  exact H.
Qed.

Lemma abs_lt_pow_BitLen (x : Z) : Z.abs x < 2 ^ big.BitLen x.
Proof.
  destruct (Z.eq_dec x 0) as [->|Hx]; [reflexivity|].
  now apply BitLen_bounds.
Qed.

Lemma Bytes_aux_acc (fuel : nat) : forall n acc,
  big.Bytes_aux fuel n acc = big.Bytes_aux fuel n [] ++ acc.
Proof.
  induction fuel as [|f IH]; intros n acc; simpl.
  - reflexivity.
  - destruct (n =? 0); [reflexivity|].
    rewrite (IH _ (_ :: acc)), (IH _ [_]).
    now rewrite <- app_assoc.
Qed.

Lemma Bytes_aux_value (fuel : nat) : forall n,
  0 <= n < 2 ^ Z.of_nat fuel ->
  big.SetBytes (big.Bytes_aux fuel n []) = n.
Proof.
  induction fuel as [|f IH]; intros n Hn.
  - simpl in *. rewrite SetBytes_nil. lia.
  - simpl big.Bytes_aux.
    destruct (Z.eqb_spec n 0) as [->|Hnz]; [reflexivity|].
    rewrite Bytes_aux_acc, SetBytes_app.
    rewrite IH.
    + rewrite SetBytes_cons, SetBytes_nil, byte_val_of_Z.
      change (blen [byte_of_Z (n mod 256)]) with 1.
      change (blen []) with 0.
      rewrite Z.pow_1_r, Z.pow_0_r, Z.mod_mod by lia.
      pose proof (Z.div_mod n 256). lia.
    + split; [apply Z.div_pos; lia|].
      apply Z.div_lt_upper_bound; [lia|].
      rewrite Nat2Z.inj_succ, Z.pow_succ_r in Hn by lia.
      assert (0 < 2 ^ Z.of_nat f) by (apply Z.pow_pos_nonneg; lia).
      lia.
Qed.

Lemma Bytes_aux_head (fuel : nat) : forall n b l,
  0 <= n < 2 ^ Z.of_nat fuel ->
  big.Bytes_aux fuel n [] = b :: l -> byte_val b <> 0.
Proof.
  induction fuel as [|f IH]; intros n b l Hn E.
  - discriminate E.
  - simpl big.Bytes_aux in E.
    destruct (Z.eqb_spec n 0) as [->|Hnz]; [discriminate E|].
    rewrite Bytes_aux_acc in E.
    assert (Hq : 0 <= n / 256 < 2 ^ Z.of_nat f).
    { split; [apply Z.div_pos; lia|].
      apply Z.div_lt_upper_bound; [lia|].
      rewrite Nat2Z.inj_succ, Z.pow_succ_r in Hn by lia.
      assert (0 < 2 ^ Z.of_nat f) by (apply Z.pow_pos_nonneg; lia).
      lia. }
    destruct (big.Bytes_aux f (n / 256) []) as [|b' l'] eqn:Eq.
    + pose proof (Bytes_aux_value f _ Hq) as Hv.
      rewrite Eq, SetBytes_nil in Hv.
      simpl in E. injection E as <- _.
      rewrite byte_val_of_Z, Z.mod_mod by lia.
      pose proof (Z.div_mod n 256). lia.
    + simpl in E. injection E as <- _.
      eapply IH; eauto.
Qed.

(** [x.Bytes()] is the big-endian encoding of [|x|] ... *)
Lemma Bytes_value (x : Z) : big.SetBytes (big.Bytes x) = Z.abs x.
Proof.
  unfold big.Bytes. apply Bytes_aux_value.
  rewrite Z2Nat.id by apply BitLen_nonneg.
  pose proof (abs_lt_pow_BitLen x). lia.
Qed.

(** ... and the minimal one: it has no leading zero byte. *)
Lemma Bytes_head (x : Z) (b : byte) (l : bytes) :
  big.Bytes x = b :: l -> byte_val b <> 0.
Proof.
  unfold big.Bytes. apply Bytes_aux_head.
  rewrite Z2Nat.id by apply BitLen_nonneg.
  pose proof (abs_lt_pow_BitLen x). lia.
Qed.

Lemma Bytes_lower (x : Z) :
  big.Bytes x <> [] -> 256 ^ (blen (big.Bytes x) - 1) <= Z.abs x.
Proof.
  intros Hne. rewrite <- Bytes_value.
  destruct (big.Bytes x) as [|b l] eqn:E; [contradiction|].
  pose proof (Bytes_head _ _ _ E) as Hb.
  rewrite SetBytes_cons, blen_cons.
  replace (1 + blen l - 1) with (blen l) by lia.
  pose proof (byte_val_range b). pose proof (SetBytes_range l).
  assert (0 < 256 ^ blen l) by (apply Z.pow_pos_nonneg; [lia|apply blen_nonneg]).
  nia.
Qed.

(** A value below [256^m] needs at most [m] bytes. *)
Lemma Bytes_fits (x m : Z) :
  0 <= m -> Z.abs x < 256 ^ m -> blen (big.Bytes x) <= m.
Proof.
  intros Hm Hx.
  destruct (big.Bytes x) as [|b l] eqn:E.
  - exact Hm.
  - assert (Hne : big.Bytes x <> []) by (rewrite E; discriminate).
    pose proof (Bytes_lower _ Hne) as Hl. rewrite E in Hl.
    assert (Hlt : 256 ^ (blen (b :: l) - 1) < 256 ^ m) by lia.
    apply Z.pow_lt_mono_r_iff in Hlt; lia.
Qed.

(** ** Slices *)

Lemma firstn_exact {A} (l1 l2 : list A) (n : nat) :
  length l1 = n -> firstn n (l1 ++ l2) = l1.
Proof.
  intros <-. rewrite firstn_app, firstn_all, Nat.sub_diag. simpl.
  apply app_nil_r.
Qed.

Lemma skipn_exact {A} (l1 l2 : list A) (n : nat) :
  length l1 = n -> skipn n (l1 ++ l2) = l2.
Proof.
  intros <-. rewrite skipn_app, skipn_all, Nat.sub_diag. reflexivity.
Qed.

Lemma copy_at_pad (n : nat) (src : bytes) :
  copy_at (repeat x00 (n + length src)) (Z.of_nat n) src
  = repeat x00 n ++ src.
Proof.
  unfold copy_at. rewrite Nat2Z.id, repeat_app.
  rewrite firstn_exact, skipn_exact by apply repeat_length.
  rewrite repeat_length, Nat.min_id, firstn_all.
  rewrite <- (repeat_length x00 (length src)) at 1.
  now rewrite skipn_all, app_nil_r.
Qed.

Lemma copy_at_whole (dst src : bytes) :
  length src = length dst -> copy_at dst 0 src = src.
Proof.
  intros E. unfold copy_at. simpl.
  rewrite E, Nat.min_id. rewrite <- E at 1.
  now rewrite firstn_all, skipn_all, app_nil_r.
Qed.

Lemma blen_skipn (n : Z) (l : bytes) :
  0 <= n <= blen l -> blen (skipn (Z.to_nat n) l) = blen l - n.
Proof.
  unfold blen. intros H. rewrite length_skipn. lia.
Qed.

(** ** The converters *)

Lemma bits2int_nonneg (input : bytes) (qlen : Z) : 0 <= bits2int input qlen.
Proof.
  unfold bits2int, big.Rsh. pose proof (SetBytes_range input).
  destruct (_ >? _); [apply Z.shiftr_nonneg|]; lia.
Qed.

Lemma pow256 (n : Z) : 0 <= n -> 256 ^ n = 2 ^ (8 * n).
Proof. intros H. now rewrite Z.pow_mul_r by lia. Qed.

(** [bits2int] never exceeds [qlen] bits (for a length [qlen >= 0]). *)
Lemma bits2int_lt (input : bytes) (qlen : Z) :
  0 <= qlen -> bits2int input qlen < 2 ^ qlen.
Proof.
  intros Hq. unfold bits2int, big.Rsh.
  pose proof (SetBytes_range input) as Hr.
  pose proof (blen_nonneg input) as Hl.
  rewrite pow256 in Hr by lia.
  destruct (Z.gtb_spec (blen input * 8) qlen) as [Hgt|Hle].
  - rewrite Z.shiftr_div_pow2 by lia.
    apply Z.div_lt_upper_bound; [apply Z.pow_pos_nonneg; lia|].
    rewrite <- Z.pow_add_r by lia.
    replace (blen input * 8 - qlen + qlen) with (8 * blen input) by lia.
    lia.
  - assert (2 ^ (8 * blen input) <= 2 ^ qlen)
      by (apply Z.pow_le_mono_r; lia).
    lia.
Qed.

(** C4. [bits2int] reads its input as a big-endian unsigned integer.
    When the input has more than [qlen] bits (8 times its byte length) the
    integer is shifted right by exactly the excess: bit [i] of the result
    is bit [i + excess] of the input, the result is the quotient by
    [2^excess] (a truncation of low-order bits, not a residue), and it has
    at most [qlen] bits. An input of at most [qlen] bits is returned as
    it is. *)
Theorem bits2int_spec (input : bytes) (qlen : Z) :
  (qlen < blen input * 8 ->
     let excess := blen input * 8 - qlen in
     bits2int input qlen = big.SetBytes input / 2 ^ excess
     /\ (forall i, 0 <= i ->
           Z.testbit (bits2int input qlen) i
           = Z.testbit (big.SetBytes input) (i + excess))
     /\ (0 <= qlen -> bits2int input qlen < 2 ^ qlen))
  /\ (blen input * 8 <= qlen -> bits2int input qlen = big.SetBytes input).
Proof.
  split.
  - intros Hgt excess.
    assert (E : bits2int input qlen = Z.shiftr (big.SetBytes input) excess).
    { unfold bits2int, big.Rsh.
      destruct (Z.gtb_spec (blen input * 8) qlen); [reflexivity|lia]. }
    repeat split.
    + rewrite E. apply Z.shiftr_div_pow2. unfold excess. lia.
    + intros i Hi. rewrite E. now apply Z.shiftr_spec.
    + apply bits2int_lt.
  - intros Hle. unfold bits2int.
    destruct (Z.gtb_spec (blen input * 8) qlen); [lia|reflexivity].
Qed.

Lemma bits2int_spec_witness :
  bits2int [xff; x80] 9 = 511 /\ bits2int [xff; x80] 16 = 65408.
Proof.
  split.
  - rewrite (proj1 (proj1 (bits2int_spec [xff; x80] 9) eq_refl)).
    reflexivity.
  - rewrite (proj2 (bits2int_spec [xff; x80] 16)); [reflexivity|].
    discriminate.
Defined.

(** The three branches of [int2octets], one by one. *)
Lemma int2octets_pad (v rolen : Z) :
  blen (big.Bytes v) < rolen ->
  int2octets v rolen
  = Some (repeat x00 (Z.to_nat (rolen - blen (big.Bytes v))) ++ big.Bytes v).
Proof.
  intros Hlt. unfold int2octets, make.
  pose proof (blen_nonneg (big.Bytes v)) as Hl.
  destruct (Z.ltb_spec (blen (big.Bytes v)) rolen); [|lia].
  destruct (Z.ltb_spec rolen 0); [lia|].
  f_equal.
  set (n := Z.to_nat (rolen - blen (big.Bytes v))).
  replace (Z.to_nat rolen) with (n + length (big.Bytes v))%nat
    by (subst n; unfold blen in *; lia).
  replace (rolen - blen (big.Bytes v)) with (Z.of_nat n) by (subst n; lia).
  apply copy_at_pad.
Qed.

Lemma int2octets_drop (v rolen : Z) :
  0 <= rolen < blen (big.Bytes v) ->
  int2octets v rolen
  = Some (skipn (Z.to_nat (blen (big.Bytes v) - rolen)) (big.Bytes v)).
Proof.
  intros Hlt. unfold int2octets, make, slice_from.
  destruct (Z.ltb_spec (blen (big.Bytes v)) rolen); [lia|].
  destruct (Z.gtb_spec (blen (big.Bytes v)) rolen); [|lia].
  destruct (Z.ltb_spec rolen 0); [lia|].
  f_equal. apply copy_at_whole.
  rewrite length_skipn, repeat_length. unfold blen in *. lia.
Qed.

Lemma int2octets_same (v rolen : Z) :
  blen (big.Bytes v) = rolen -> int2octets v rolen = Some (big.Bytes v).
Proof.
  intros E. unfold int2octets.
  destruct (Z.ltb_spec (blen (big.Bytes v)) rolen); [lia|].
  destruct (Z.gtb_spec (blen (big.Bytes v)) rolen); [lia|].
  reflexivity.
Qed.

(** [int2octets] succeeds for every length [rolen >= 0], with exactly
    [rolen] bytes that encode [|v| mod 256^rolen]. *)
Lemma int2octets_total (v rolen : Z) :
  0 <= rolen ->
  exists out, int2octets v rolen = Some out
              /\ blen out = rolen
              /\ big.SetBytes out = Z.abs v mod 256 ^ rolen.
Proof.
  intros Hr.
  pose proof (blen_nonneg (big.Bytes v)) as Hl.
  destruct (Z.lt_total (blen (big.Bytes v)) rolen) as [Hlt|[Heq|Hgt]].
  - eexists. split; [now apply int2octets_pad|]. split.
    + rewrite blen_app, blen_repeat. lia.
    + rewrite SetBytes_pad, Bytes_value.
      symmetry. apply Z.mod_small.
      pose proof (SetBytes_range (big.Bytes v)) as Hv.
      rewrite Bytes_value in Hv.
      assert (256 ^ blen (big.Bytes v) <= 256 ^ rolen)
        by (apply Z.pow_le_mono_r; lia).
      lia.
  - eexists. split; [now apply int2octets_same|]. split; [exact Heq|].
    rewrite Bytes_value. symmetry. apply Z.mod_small.
    pose proof (SetBytes_range (big.Bytes v)) as Hv.
    rewrite Bytes_value, Heq in Hv. exact Hv.
  - eexists. split; [apply int2octets_drop; lia|].
    assert (Hb : blen (skipn (Z.to_nat (blen (big.Bytes v) - rolen))
                             (big.Bytes v)) = rolen)
      by (rewrite blen_skipn; lia).
    split; [exact Hb|].
    now rewrite SetBytes_skipn, Hb, Bytes_value.
Qed.

(** C5. For a non-negative [value] and a length [rolen >= 0],
    [int2octets] returns exactly [rolen] bytes; [value.Bytes()] is the
    minimal big-endian encoding of [value] (it decodes to [value] and has
    no leading zero byte); a shorter encoding is left-padded with zero
    bytes, a longer one loses its most significant excess bytes, without
    any error. In both cases the result decodes to [value mod 256^rolen]. *)
Theorem int2octets_spec (value rolen : Z) :
  0 <= value -> 0 <= rolen ->
  let enc := big.Bytes value in
  big.SetBytes enc = value
  /\ (forall b l, enc = b :: l -> b <> x00)
  /\ exists out,
       int2octets value rolen = Some out
       /\ blen out = rolen
       /\ (blen enc <= rolen ->
             out = repeat x00 (Z.to_nat (rolen - blen enc)) ++ enc
             /\ big.SetBytes out = value)
       /\ (rolen < blen enc ->
             out = skipn (Z.to_nat (blen enc - rolen)) enc)
       /\ big.SetBytes out = value mod 256 ^ rolen.
Proof.
  intros Hv Hr enc. subst enc.
  split; [rewrite Bytes_value; lia|].
  split.
  { intros b l E ->. now apply Bytes_head in E. }
  destruct (int2octets_total value rolen Hr) as (out & E & Hlen & Hval).
  exists out. rewrite Z.abs_eq in Hval by exact Hv.
  repeat split; trivial.
  - destruct (Z.eq_dec (blen (big.Bytes value)) rolen) as [Heq|Hne].
    + rewrite int2octets_same in E by exact Heq.
      injection E as <-. rewrite Heq, Z.sub_diag. reflexivity.
    + rewrite int2octets_pad in E by lia. now injection E as <-.
  - assert (Eo : out = repeat x00 (Z.to_nat (rolen - blen (big.Bytes value)))
                       ++ big.Bytes value).
    { destruct (Z.eq_dec (blen (big.Bytes value)) rolen) as [Heq|Hne].
      + rewrite int2octets_same in E by exact Heq.
        injection E as <-. rewrite Heq, Z.sub_diag. reflexivity.
      + rewrite int2octets_pad in E by lia. now injection E as <-. }
    rewrite Eo, SetBytes_pad, Bytes_value. lia.
  - intros Hgt. rewrite int2octets_drop in E by lia. now injection E as <-.
Qed.

Lemma int2octets_spec_witness :
  int2octets 258 4 = Some [x00; x00; x01; x02]
  /\ int2octets 66051 2 = Some [x02; x03].
Proof.
  split.
  - destruct (int2octets_spec 258 4) as (_ & _ & out & E & _ & Hpad & _);
      [discriminate|discriminate|].
    rewrite E. f_equal. apply Hpad. discriminate.
  - destruct (int2octets_spec 66051 2) as (_ & _ & out & E & _ & _ & Hdrop & _);
      [discriminate|discriminate|].
    rewrite E. f_equal. apply Hdrop. reflexivity.
Defined.

(** The branch of [bits2octets] on the sign of [z1 - q]. *)
Lemma bits2octets_cases (input : bytes) (q qlen rolen : Z) :
  bits2octets input q qlen rolen
  = if bits2int input qlen - q <? 0
    then int2octets (bits2int input qlen) rolen
    else int2octets (bits2int input qlen - q) rolen.
Proof.
  unfold bits2octets, big.Sub, big.Sign.
  set (z2 := bits2int input qlen - q).
  destruct (Z.ltb_spec (Z.sgn z2) 0) as [Hs|Hs];
    destruct (Z.ltb_spec z2 0) as [Hz|Hz]; try reflexivity.
  - pose proof (Z.sgn_nonneg z2). lia.
  - pose proof (Z.sgn_neg z2 Hz). lia.
Qed.

(** C6. [bits2octets] computes [z1 = bits2int(input, qlen)] and encodes
    [z1] when [z1 - q] is negative, [z1 - q] otherwise. *)
Theorem bits2octets_spec (input : bytes) (q qlen rolen : Z) :
  let z1 := bits2int input qlen in
  (z1 - q < 0 -> bits2octets input q qlen rolen = int2octets z1 rolen)
  /\ (0 <= z1 - q ->
        bits2octets input q qlen rolen = int2octets (z1 - q) rolen).
Proof.
  intros z1. rewrite bits2octets_cases. fold z1.
  split; intros Hz; destruct (Z.ltb_spec (z1 - q) 0); try lia; reflexivity.
Qed.

Lemma bits2octets_spec_witness :
  bits2octets [xa5] 7 3 1 = int2octets 5 1
  /\ bits2octets [xff] 201 8 1 = int2octets 54 1.
Proof.
  split.
  - exact (proj1 (bits2octets_spec [xa5] 7 3 1) eq_refl).
  - refine (proj2 (bits2octets_spec [xff] 201 8 1) _). discriminate.
Defined.

(** C10. For a positive [q] of bit length [qlen] and [rolen = ceil(qlen/8)],
    [bits2int(input, qlen) < 2^qlen <= 2q], so one conditional subtraction
    of [q] lands in [[0, q)]; that integer fits in [rolen] bytes, so
    [int2octets] encodes it without truncation and the bytes returned by
    [bits2octets] decode to a value in [[0, q)]. *)
Theorem bits2octets_range (input : bytes) (q qlen rolen : Z) :
  0 < q -> qlen = big.BitLen q -> rolen = (qlen + 7) / 8 ->
  let z1 := bits2int input qlen in
  z1 < 2 ^ qlen
  /\ 2 ^ qlen <= 2 * q
  /\ exists out,
       bits2octets input q qlen rolen = Some out
       /\ blen out = rolen
       /\ big.SetBytes out = (if z1 <? q then z1 else z1 - q)
       /\ 0 <= big.SetBytes out < q.
Proof.
  intros Hq Eqlen Erolen z1.
  assert (Hb : 2 ^ (qlen - 1) <= q < 2 ^ qlen).
  { pose proof (BitLen_bounds q) as H. rewrite <- Eqlen in H.
    rewrite Z.abs_eq in H by lia. apply H. lia. }
  assert (Hqlen : 1 <= qlen).
  { subst qlen. unfold big.BitLen.
    destruct (Z.eqb_spec q 0); [lia|].
    pose proof (Z.log2_nonneg (Z.abs q)). lia. }
  assert (Hpow : 2 ^ qlen = 2 * 2 ^ (qlen - 1)).
  { rewrite <- Z.pow_succ_r by lia. f_equal. lia. }
  assert (Hz1 : 0 <= z1 < 2 ^ qlen).
  { split; [apply bits2int_nonneg|apply bits2int_lt; lia]. }
  assert (Hro : 0 <= rolen /\ qlen <= 8 * rolen).
  { pose proof (Z.div_mod (qlen + 7) 8).
    pose proof (Z.mod_pos_bound (qlen + 7) 8). lia. }
  assert (Hfit : 2 ^ qlen <= 256 ^ rolen).
  { rewrite pow256 by lia. apply Z.pow_le_mono_r; lia. }
  split; [lia|]. split; [lia|].
  set (w := if z1 <? q then z1 else z1 - q).
  assert (Hw : 0 <= w < q).
  { subst w. destruct (Z.ltb_spec z1 q); lia. }
  assert (Ew : bits2octets input q qlen rolen = int2octets w rolen).
  { subst w. rewrite bits2octets_cases. fold z1.
    destruct (Z.ltb_spec z1 q); destruct (Z.ltb_spec (z1 - q) 0);
      try lia; reflexivity. }
  destruct (int2octets_total w rolen) as (out & E & Hlen & Hval); [lia|].
  exists out. rewrite Ew.
  rewrite Z.abs_eq, Z.mod_small in Hval by lia.
  rewrite Hval. auto.
Qed.

Lemma bits2octets_range_witness :
  exists out, bits2octets [xff; xff] 201 8 1 = Some out
              /\ 0 <= big.SetBytes out < 201.
Proof.
  destruct (bits2octets_range [xff; xff] 201 8 1)
    as (_ & _ & out & E & _ & _ & Hr);
    [reflexivity|reflexivity|reflexivity|].
  exists out. split; assumption.
Defined.

(** C9. [hashToInt] agrees with [bits2int] at the bit length of the curve
    order: cutting the hash to [ceil(qlen'/8)] bytes and shifting out the
    remaining excess bits keeps the same [qlen'] leading bits. *)
Theorem hashToInt_bits2int {C} `{Curve C} (hash : bytes) (c : C) :
  hashToInt hash c = bits2int hash (big.BitLen (Params_N c)).
Proof.
  unfold hashToInt, bits2int, big.Rsh, int_div.
  set (ob := big.BitLen (Params_N c)).
  assert (Hob : 0 <= ob) by apply BitLen_nonneg.
  rewrite Z.quot_div_nonneg by lia.
  set (oby := (ob + 7) / 8).
  assert (Hoby : 0 <= oby /\ ob <= 8 * oby < ob + 8).
  { subst oby. pose proof (Z.div_mod (ob + 7) 8).
    pose proof (Z.mod_pos_bound (ob + 7) 8). lia. }
  pose proof (blen_nonneg hash) as Hl.
  destruct (Z.gtb_spec (blen hash) oby) as [Hlong|Hshort].
  - assert (Hk : blen (firstn (Z.to_nat oby) hash) = oby).
    { unfold blen in *. rewrite length_firstn. lia. }
    assert (Hs : blen (skipn (Z.to_nat oby) hash) = blen hash - oby).
    { apply blen_skipn. lia. }
    rewrite Hk.
    destruct (Z.gtb_spec (blen hash * 8) ob) as [_|]; [|lia].
    rewrite SetBytes_firstn, Hs, pow256 by lia.
    rewrite (Z.shiftr_div_pow2 _ (blen hash * 8 - ob)) by lia.
    replace (blen hash * 8 - ob)
      with (8 * (blen hash - oby) + (oby * 8 - ob)) by lia.
    rewrite Z.pow_add_r by lia.
    assert (0 < 2 ^ (8 * (blen hash - oby)))
      by (apply Z.pow_pos_nonneg; lia).
    assert (0 < 2 ^ (oby * 8 - ob)) by (apply Z.pow_pos_nonneg; lia).
    destruct (Z.gtb_spec (oby * 8 - ob) 0).
    + rewrite Z.shiftr_div_pow2 by lia.
      rewrite Z.div_div by lia. reflexivity.
    + replace (oby * 8 - ob) with 0 by lia.
      rewrite Z.pow_0_r, Z.mul_1_r. reflexivity.
  - destruct (Z.gtb_spec (blen hash * 8 - ob) 0);
      destruct (Z.gtb_spec (blen hash * 8) ob); try lia; reflexivity.
Qed.



(** ** The generator: one turn of the loop *)

Section GeneratorFacts.

Variable alg : HashAlgorithm.

Lemma spec_T_snoc (k v : bytes) (n : nat) :
  spec_T alg k v (S n) = spec_T alg k v n ++ spec_V alg k v (S n).
Proof.
  revert v. induction n as [|n IH]; intros v.
  - simpl. now rewrite app_nil_r.
  - change (spec_T alg k v (S (S n)))
      with (mac alg k v ++ spec_T alg k (mac alg k v) (S n)).
    rewrite IH. simpl. now rewrite app_assoc.
Qed.

(** The inner loop started with [t] already collected: it stops after
    the first [n] rounds that reach [qlen/8] bytes. *)
Lemma stepH2_rounds (qlen : Z) (k : bytes) (n : nat) :
  forall fuel v t,
    (forall m, (m < n)%nat ->
               blen (t ++ spec_T alg k v m) < int_div qlen 8) ->
    int_div qlen 8 <= blen (t ++ spec_T alg k v n) ->
    (n <= fuel)%nat ->
    stepH2 fuel alg k v t qlen
    = Some (spec_V alg k v n, t ++ spec_T alg k v n).
Proof.
  induction n as [|n IH]; intros fuel v t Hbelow Hreach Hfuel.
  - simpl in *. rewrite app_nil_r in *.
    destruct fuel; simpl;
      destruct (Z.ltb_spec (blen t) (int_div qlen 8)); try lia; reflexivity.
  - destruct fuel as [|fuel]; [lia|].
    pose proof (Hbelow O (Nat.lt_0_succ n)) as H0.
    simpl in H0. rewrite app_nil_r in H0.
    simpl stepH2.
    destruct (Z.ltb_spec (blen t) (int_div qlen 8)); [|lia].
    rewrite IH.
    + simpl. now rewrite <- app_assoc.
    + intros m Hm. rewrite <- app_assoc.
      apply (Hbelow (S m)). lia.
    + rewrite <- app_assoc. exact Hreach.
    + lia.
Qed.

Lemma blen_spec_T (holen : Z) (k v : bytes) (n : nat) :
  (forall k' m, blen (mac alg k' m) = holen) ->
  blen (spec_T alg k v n) = Z.of_nat n * holen.
Proof.
  intros Hlen. revert v.
  induction n as [|n IH]; intros v.
  - reflexivity.
  - simpl spec_T. rewrite blen_app, Hlen, IH. lia.
Qed.

Lemma spec_rounds_least (qlen holen : Z) :
  0 < holen ->
  let n := Z.of_nat (spec_rounds qlen holen) in
  int_div qlen 8 <= n * holen
  /\ forall m, 0 <= m < n -> m * holen < int_div qlen 8.
Proof.
  intros Hpos. unfold spec_rounds.
  set (L := Z.max 0 (int_div qlen 8)).
  assert (HL : 0 <= L /\ int_div qlen 8 <= L) by (subst L; lia).
  set (c := (L + holen - 1) / holen).
  pose proof (Z.div_mod (L + holen - 1) holen) as Hdm.
  pose proof (Z.mod_pos_bound (L + holen - 1) holen Hpos) as Hmb.
  fold c in Hdm.
  assert (Hc : 0 <= c) by (subst c; apply Z.div_pos; lia).
  rewrite Z2Nat.id by exact Hc.
  split; [nia|].
  intros m Hm.
  assert (m * holen < L) by nia.
  assert (0 < L) by nia.
  subst L. lia.
Qed.

Lemma in_range_bool (c q : Z) :
  (big.Cmp c 1 >=? 0) && (big.Cmp c q <? 0) = (1 <=? c) && (c <? q).
Proof.
  unfold big.Cmp.
  destruct (Z.compare_spec c 1), (Z.compare_spec c q),
           (Z.leb_spec 1 c), (Z.ltb_spec c q); simpl; try reflexivity; lia.
Qed.

(** With enough fuel for the inner loop, the main loop of the source is
    the loop of the specification, turn by turn. *)
Lemma loopH_spec_loop {St : Type} (q qlen holen : Z)
      (test : Z -> St -> verdict * St) (inner : nat) :
  0 < holen ->
  (forall k' m, blen (mac alg k' m) = holen) ->
  (spec_rounds qlen holen <= inner)%nat ->
  forall fuel k v st,
    loopH fuel inner alg q qlen test k v st
    = spec_loop fuel alg q qlen holen test k v st.
Proof.
  intros Hpos Hlen Hinner.
  destruct (spec_rounds_least qlen holen Hpos) as [Hreach Hbelow].
  induction fuel as [|f IH]; intros k v st; [reflexivity|].
  simpl loopH. simpl spec_loop. unfold iterationH.
  rewrite (stepH2_rounds qlen k (spec_rounds qlen holen) inner v []).
  - simpl app. unfold tryCandidate. rewrite in_range_bool.
    destruct ((1 <=? _) && (_ <? q)).
    + destruct (test _ st) as [[ | | ] st']; try reflexivity. apply IH.
    + apply IH.
  - intros m Hm. simpl. rewrite (blen_spec_T holen) by exact Hlen.
    apply Hbelow. lia.
  - simpl. now rewrite (blen_spec_T holen).
  - exact Hinner.
Qed.

(** C1. With a MAC whose outputs all have [holen > 0] bytes and fuel for
    one inner loop, [generateSecret] is, after its seeding steps, the
    loop of the specification run on [qlen = BitLen(q)]: every turn of
    its main loop builds [T] by [n] rounds of [V = mac(K, V)], each
    appended to [T], decodes the candidate [bits2int(T, qlen)], tests
    it, and otherwise updates [K] and [V]. The count [n] is the first at
    which [len(T) >= qlen/8] (floor division), from whatever state
    [(k, v)] the turn starts. *)
Theorem generateSecret_builds_T {St : Type} (fuel : nat) (q x holen : Z)
        (hash : bytes) (test : Z -> St -> verdict * St) (st : St) :
  0 < holen ->
  (forall k' m, blen (mac alg k' m) = holen) ->
  let qlen := big.BitLen q in
  let n := spec_rounds qlen holen in
  (n <= fuel)%nat ->
  generateSecret fuel q x alg hash test st
  = match seed q x alg hash with
    | None => (Panicked, st)
    | Some (k, v) => spec_loop fuel alg q qlen holen test k v st
    end
  /\ forall k v,
       int_div qlen 8 <= blen (spec_T alg k v n)
       /\ (forall m, (m < n)%nat ->
                     blen (spec_T alg k v m) < int_div qlen 8)
       /\ stepH2 fuel alg k v [] qlen
          = Some (spec_V alg k v n, spec_T alg k v n)
       /\ iterationH fuel alg q qlen test k v st
          = tryCandidate alg q test k (spec_V alg k v n)
                         (bits2int (spec_T alg k v n) qlen) st.
Proof.
  intros Hpos Hlen qlen n Hfuel.
  destruct (spec_rounds_least qlen holen Hpos) as [Hreach Hbelow].
  fold n in Hreach, Hbelow.
  split.
  - unfold generateSecret.
    destruct (seed q x alg hash) as [[k v]|]; [|reflexivity].
    now apply loopH_spec_loop.
  - intros k v.
    assert (H1 : int_div qlen 8 <= blen (spec_T alg k v n)).
    { now rewrite (blen_spec_T holen). }
    assert (H2 : forall m, (m < n)%nat ->
                           blen (spec_T alg k v m) < int_div qlen 8).
    { intros m Hm. rewrite (blen_spec_T holen) by exact Hlen.
      apply Hbelow. lia. }
    assert (E : stepH2 fuel alg k v [] qlen
                = Some (spec_V alg k v n, spec_T alg k v n)).
    { apply (stepH2_rounds qlen k n fuel v []); assumption. }
    repeat split; trivial.
    unfold iterationH. now rewrite E.
Qed.

End GeneratorFacts.

Lemma Toy_alg_len (k m : bytes) : blen (mac Toy.alg k m) = 1.
Proof. reflexivity. Qed.

Lemma generateSecret_builds_T_witness :
  generateSecret 10 251 7 Toy.alg Toy.digest
    (logged (fun k (st : unit) => (if k <? 100 then Accept else Reject, st)))
    (tt, [])
  = match seed 251 7 Toy.alg Toy.digest with
    | None => (Panicked, (tt, []))
    | Some (k, v) =>
        spec_loop 10 Toy.alg 251 8 1
          (logged (fun k (st : unit) =>
                     (if k <? 100 then Accept else Reject, st)))
          k v (tt, [])
    end.
Proof.
  refine (proj1 (generateSecret_builds_T Toy.alg 10 251 7 1 Toy.digest
                   (logged (fun k (st : unit) =>
                              (if k <? 100 then Accept else Reject, st)))
                   (tt, []) _ Toy_alg_len _)).
  - reflexivity.
  - repeat constructor.
Defined.

(** The run of the specification's loop on the small instance: two
    candidates are offered, the second is accepted. *)
Example spec_loop_run :
  match seed 251 7 Toy.alg Toy.digest with
  | None => None
  | Some (k, v) =>
      Some (spec_loop 10 Toy.alg 251 8 1
              (logged (fun k (st : unit) =>
                         (if k <? 100 then Accept else Reject, st)))
              k v (tt, []))
  end
  = Some (Returned, (tt, [32; 160])).
Proof. vm_compute. reflexivity. Qed.

(** ** The generator: which candidates reach the callback *)

Lemma Cmp_ge_1 (a : Z) : (big.Cmp a 1 >=? 0) = true <-> 1 <= a.
Proof.
  unfold big.Cmp. destruct (Z.compare_spec a 1); simpl; split; intros; lia.
Qed.

Lemma Cmp_lt (a q : Z) : (big.Cmp a q <? 0) = true <-> a < q.
Proof.
  unfold big.Cmp. destruct (Z.compare_spec a q); simpl; split; intros; lia.
Qed.

Lemma in_range_iff (a q : Z) :
  (big.Cmp a 1 >=? 0) && (big.Cmp a q <? 0) = true <-> 1 <= a < q.
Proof.
  rewrite andb_true_iff, Cmp_ge_1, Cmp_lt. tauto.
Qed.

Section Logging.

Context {St : Type}.
Variable alg : HashAlgorithm.
Variable q : Z.
Variable test : Z -> St -> verdict * St.

Lemma tryCandidate_logged (k v : bytes) (secret : Z) (st : St)
      (log : list Z) :
  exists log',
    (log' = log \/ (log' = secret :: log /\ in_range q secret))
    /\ tryCandidate alg q (logged test) k v secret (st, log)
       = with_log log' (tryCandidate alg q test k v secret st).
Proof.
  unfold tryCandidate, logged.
  destruct ((big.Cmp secret 1 >=? 0) && (big.Cmp secret q <? 0)) eqn:R.
  - apply in_range_iff in R.
    exists (secret :: log). split; [right; split; [reflexivity|exact R]|].
    destruct (test secret st) as [[ | | ] st']; reflexivity.
  - exists log. split; [now left|reflexivity].
Qed.

Lemma loopH_logged (inner : nat) (qlen : Z) (fuel : nat) :
  forall k v st log,
    Forall (in_range q) log ->
    exists log',
      Forall (in_range q) log'
      /\ loopH fuel inner alg q qlen (logged test) k v (st, log)
         = (fst (loopH fuel inner alg q qlen test k v st),
            (snd (loopH fuel inner alg q qlen test k v st), log')).
Proof.
  induction fuel as [|f IH]; intros k v st log Hlog.
  - exists log. split; [exact Hlog|reflexivity].
  - simpl loopH. unfold iterationH.
    destruct (stepH2 inner alg k v [] qlen) as [[v1 t]|].
    + destruct (tryCandidate_logged k v1 (bits2int t qlen) st log)
        as (log1 & Hlog1 & E).
      rewrite E.
      assert (Hf : Forall (in_range q) log1).
      { destruct Hlog1 as [->|[-> Hr]]; [exact Hlog|].
        constructor; assumption. }
      destruct (tryCandidate alg q test k v1 (bits2int t qlen) st)
        as [s st'|k' v' st']; simpl with_log.
      * exists log1. split; [exact Hf|reflexivity].
      * apply IH. exact Hf.
    + exists log. split; [exact Hlog|reflexivity].
Qed.

End Logging.

(** C2. Whatever the fuel and however the run ends, every candidate the
    acceptance predicate was called on lies in [[1, q)]. The recording
    predicate [logged test] behaves as [test] does (same status, same
    captured state) and its log holds exactly the candidates passed. *)
Theorem generateSecret_range {St : Type} (fuel : nat) (q x : Z)
        (alg : HashAlgorithm) (hash : bytes)
        (test : Z -> St -> verdict * St) (st : St) :
  let plain := generateSecret fuel q x alg hash test st in
  let run := generateSecret fuel q x alg hash (logged test) (st, []) in
  fst run = fst plain
  /\ fst (snd run) = snd plain
  /\ Forall (in_range q) (snd (snd run)).
Proof.
  unfold generateSecret.
  destruct (seed q x alg hash) as [[k v]|]; simpl.
  - destruct (loopH_logged alg q test fuel (big.BitLen q) fuel k v st [])
      as (log' & Hlog & E); [constructor|].
    rewrite E. simpl. auto.
  - auto.
Qed.

(** The log is not empty in general: here two candidates were tried. *)
Example generateSecret_range_run :
  generateSecret 10 251 7 Toy.alg Toy.digest
    (logged (fun k (st : unit) => (if k <? 100 then Accept else Reject, st)))
    (tt, [])
  = (Returned, (tt, [32; 160])).
Proof. reflexivity. Qed.

(** ** The generator: independence of the fuel *)

Lemma stepH2_mono (alg : HashAlgorithm) (qlen : Z) (k : bytes) (f : nat) :
  forall f' v t r,
    stepH2 f alg k v t qlen = Some r -> (f <= f')%nat ->
    stepH2 f' alg k v t qlen = Some r.
Proof.
  induction f as [|f IH]; intros f' v t r E Hle.
  - simpl in E. destruct f'; simpl;
      destruct (blen t <? int_div qlen 8); try discriminate; exact E.
  - destruct f' as [|f']; [lia|].
    simpl in *. destruct (blen t <? int_div qlen 8); [|exact E].
    apply IH; [exact E|lia].
Qed.

Lemma tryCandidate_finished {St : Type} (alg : HashAlgorithm) (q : Z)
      (test : Z -> St -> verdict * St) (k v : bytes) (secret : Z) (st st' : St) :
  tryCandidate alg q test k v secret st <> Stop Unfinished st'.
Proof.
  unfold tryCandidate.
  destruct ((big.Cmp secret 1 >=? 0) && (big.Cmp secret q <? 0));
    [destruct (test secret st) as [[ | | ] ?]|]; discriminate.
Qed.




(** A run that returned did so on a candidate in range that the callback
    accepted. *)
Lemma loopH_returned {St : Type} (alg : HashAlgorithm) (q qlen : Z)
      (test : Z -> St -> verdict * St) (inner : nat) (fuel : nat) :
  forall k v st st',
    loopH fuel inner alg q qlen test k v st = (Returned, st') ->
    exists c st0, in_range q c /\ test c st0 = (Accept, st').
Proof.
  induction fuel as [|f IH]; intros k v st st' E.
  - discriminate E.
  - simpl in E. unfold iterationH in E.
    destruct (stepH2 inner alg k v [] qlen) as [[v1 t]|]; [|discriminate E].
    unfold tryCandidate in E.
    destruct ((big.Cmp (bits2int t qlen) 1 >=? 0)
              && (big.Cmp (bits2int t qlen) q <? 0)) eqn:R.
    + apply in_range_iff in R.
      destruct (test (bits2int t qlen) st) as [[ | | ] st1] eqn:Et.
      * injection E as <-. eauto.
      * eapply IH; eauto.
      * discriminate E.
    + eapply IH; eauto.
Qed.

Lemma generateSecret_returned {St : Type} (fuel : nat) (q x : Z)
      (alg : HashAlgorithm) (hash : bytes)
      (test : Z -> St -> verdict * St) (st st' : St) :
  generateSecret fuel q x alg hash test st = (Returned, st') ->
  exists c st0, in_range q c /\ test c st0 = (Accept, st').
Proof.
  unfold generateSecret.
  destruct (seed q x alg hash) as [[k v]|]; [|discriminate].
  apply loopH_returned.
Qed.

(** Without fuel the generator cannot report a return. *)
Lemma generateSecret_no_fuel {St : Type} (q x : Z) (alg : HashAlgorithm)
      (hash : bytes) (test : Z -> St -> verdict * St) (st : St) :
  fst (generateSecret 0 q x alg hash test st) <> Returned.
Proof.
  unfold generateSecret.
  destruct (seed q x alg hash) as [[k v]|]; simpl; discriminate.
Qed.

(** ** The signers *)

Lemma Mod_range (x y z : Z) :
  big.Mod x y = Some z -> 0 < y -> 0 <= z < y.
Proof.
  unfold big.Mod. destruct (y =? 0); [discriminate|].
  intros [= <-] Hy. rewrite Z.abs_eq by lia.
  apply Z.mod_pos_bound. exact Hy.
Qed.

Lemma Sign_nonzero (x : Z) : (big.Sign x =? 0) = false -> x <> 0.
Proof.
  unfold big.Sign. intros H ->. discriminate H.
Qed.

Lemma int_and_7 (n : Z) : int_and n 7 = n mod 8.
Proof.
  unfold int_and. change 7 with (Z.ones 3).
  rewrite Z.land_ones by lia. reflexivity.
Qed.

Section SignerFacts.

Variable ModInverse : Z -> Z -> option Z.
Variable Exp : Z -> Z -> Z -> option Z.
Context {C : Type} `{Curve C}.

Lemma dsa_test_accept (priv : dsa_PrivateKey) (hash : bytes) (k : Z)
      (st : rs) (r s : option Z) :
  dsa_test ModInverse Exp priv hash k st = (Accept, (r, s)) ->
  0 < Q priv ->
  exists r' s', r = Some r' /\ s = Some s'
                /\ in_range (Q priv) r' /\ in_range (Q priv) s'.
Proof.
  unfold dsa_test. intros E Hq. cbv zeta in E.
  destruct (Exp (G priv) k (P priv)) as [r0|]; [|discriminate E].
  destruct (big.Mod r0 (Q priv)) as [r1|] eqn:Er; [|discriminate E].
  destruct (big.Sign r1 =? 0) eqn:Sr; [discriminate E|].
  destruct (big.Mod (big.Add _ _) (Q priv)) as [s1|]; [|discriminate E].
  destruct (ModInverse k (Q priv)) as [ki|]; [|discriminate E].
  destruct (big.Mod (big.Mul s1 ki) (Q priv)) as [s2|] eqn:Es;
    [|discriminate E].
  destruct (big.Sign s2 =? 0) eqn:Ss; [discriminate E|].
  simpl in E. injection E as <- <-.
  apply Mod_range in Er, Es; try exact Hq.
  apply Sign_nonzero in Sr, Ss.
  exists r1, s2. unfold in_range. repeat split; lia.
Qed.

Lemma ecdsa_test_accept (priv : ecdsa_PrivateKey C) (hash : bytes) (k : Z)
      (st : rs) (r s : option Z) :
  let N := Params_N (PublicKey_Curve priv) in
  ecdsa_test ModInverse priv hash k st = (Accept, (r, s)) ->
  0 < N ->
  exists r' s', r = Some r' /\ s = Some s'
                /\ in_range N r' /\ in_range N s'.
Proof.
  intros N E Hq. unfold ecdsa_test in E. cbv zeta in E. fold N in E.
  destruct (fst (ScalarBaseMult (PublicKey_Curve priv) (big.Bytes k)))
    as [r0|]; [|discriminate E].
  destruct (big.Mod r0 _) as [r1|] eqn:Er; [|discriminate E].
  destruct (big.Sign r1 =? 0) eqn:Sr; [discriminate E|].
  destruct (ModInverse k _) as [ki|]; [|discriminate E].
  destruct (big.Mod (big.Mul _ ki) _) as [s2|] eqn:Es; [|discriminate E].
  destruct (big.Sign s2 =? 0) eqn:Ss; [discriminate E|].
  simpl in E. injection E as <- <-.
  apply Mod_range in Er, Es; try exact Hq.
  apply Sign_nonzero in Sr, Ss.
  exists r1, s2. unfold in_range. repeat split; lia.
Qed.

(** C8. When [SignDSA] or [SignECDSA] returns without an error, [r] and
    [s] are set, non-zero and reduced modulo the group order:
    [1 <= r < q] and [1 <= s < q]. *)
Theorem signature_in_range :
  (forall fuel priv hash alg sig,
      SignDSA ModInverse Exp fuel priv hash alg = (Returned, sig) ->
      sig_err sig = None ->
      exists r s, sig_r sig = Some r /\ sig_s sig = Some s
                  /\ in_range (Q priv) r /\ in_range (Q priv) s)
  /\ (forall fuel (priv : ecdsa_PrivateKey C) hash alg sig,
        SignECDSA ModInverse fuel priv hash alg = (Returned, sig) ->
        sig_err sig = None ->
        let N := Params_N (PublicKey_Curve priv) in
        exists r s, sig_r sig = Some r /\ sig_s sig = Some s
                    /\ in_range N r /\ in_range N s).
Proof.
  split.
  - intros fuel priv hash alg sig E Herr. unfold SignDSA in E.
    destruct (negb (int_and (big.BitLen (Q priv)) 7 =? 0)).
    { injection E as <-. discriminate Herr. }
    destruct (generateSecret fuel (Q priv) (X priv) alg hash
                (dsa_test ModInverse Exp priv hash) (None, None))
      as [fin [r s]] eqn:Eg.
    injection E as -> <-. simpl.
    apply generateSecret_returned in Eg.
    destruct Eg as (c & st0 & Hc & Et).
    apply dsa_test_accept in Et; [|unfold in_range in Hc; lia].
    destruct Et as (r' & s' & -> & -> & Hr & Hs).
    exists r', s'. auto.
  - intros fuel priv hash alg sig E Herr N. unfold SignECDSA in E.
    destruct (generateSecret fuel _ (D priv) alg hash
                (ecdsa_test ModInverse priv hash) (None, None))
      as [fin [r s]] eqn:Eg.
    injection E as -> <-. simpl.
    apply generateSecret_returned in Eg.
    destruct Eg as (c & st0 & Hc & Et).
    apply ecdsa_test_accept in Et; [|unfold in_range in Hc; lia].
    destruct Et as (r' & s' & -> & -> & Hr & Hs).
    exists r', s'. auto.
Qed.

(** C7. [SignDSA] fails with its invalid-parameters error exactly when
    the bit length of [Q] is not a multiple of 8. It does so at once: for
    every fuel (even none, with which a run of the generator cannot
    return, see [generateSecret_no_fuel]), every hash algorithm and every
    digest the result is the same, with [r] and [s] still nil. When the
    bit length is a multiple of 8 no run carries an error. *)
Theorem SignDSA_invalid_parameters (priv : dsa_PrivateKey) :
  let n := big.BitLen (Q priv) in
  (n mod 8 <> 0 ->
     forall fuel hash alg,
       SignDSA ModInverse Exp fuel priv hash alg
       = (Returned, {| sig_r := None; sig_s := None;
                       sig_err := Some ErrInvalidPublicKey |}))
  /\ (n mod 8 = 0 ->
        forall fuel hash alg,
          sig_err (snd (SignDSA ModInverse Exp fuel priv hash alg)) = None
          /\ SignDSA ModInverse Exp fuel priv hash alg
             = (let '(fin, (r, s)) :=
                  generateSecret fuel (Q priv) (X priv) alg hash
                    (dsa_test ModInverse Exp priv hash) (None, None) in
                (fin, {| sig_r := r; sig_s := s; sig_err := None |})))
  /\ (forall fuel hash alg sig e,
        SignDSA ModInverse Exp fuel priv hash alg = (Returned, sig) ->
        sig_err sig = Some e -> n mod 8 <> 0).
Proof.
  intros n.
  assert (Hbad : n mod 8 <> 0 ->
                 negb (int_and (big.BitLen (Q priv)) 7 =? 0) = true).
  { intros Hn. rewrite int_and_7. fold n.
    destruct (Z.eqb_spec (n mod 8) 0); [contradiction|reflexivity]. }
  assert (Hgood : n mod 8 = 0 ->
                  negb (int_and (big.BitLen (Q priv)) 7 =? 0) = false).
  { intros Hn. rewrite int_and_7. fold n. now rewrite Hn. }
  split; [|split].
  - intros Hn fuel hash alg. unfold SignDSA. now rewrite Hbad.
  - intros Hn fuel hash alg. unfold SignDSA. rewrite Hgood by exact Hn.
    split; [|reflexivity].
    destruct (generateSecret _ _ _ _ _ _ _) as [fin [r s]]. reflexivity.
  - intros fuel hash alg sig e E He Hn.
    unfold SignDSA in E. rewrite Hgood in E by exact Hn.
    destruct (generateSecret _ _ _ _ _ _ _) as [fin [r s]].
    injection E as _ <-. discriminate He.
Qed.








End SignerFacts.

(** ** The theorems of the signers on the small instance *)

Lemma Toy_SignDSA_run :
  SignDSA Toy.ModInverse Toy.Exp 10 Toy.dsa_key Toy.digest Toy.alg
  = (Returned, {| sig_r := Some 61; sig_s := Some 50; sig_err := None |}).
Proof. vm_compute. reflexivity. Qed.

Lemma Toy_SignECDSA_run :
  SignECDSA Toy.ModInverse 10 Toy.ecdsa_key Toy.digest Toy.alg
  = (Returned, {| sig_r := Some 225; sig_s := Some 68; sig_err := None |}).
Proof. vm_compute. reflexivity. Qed.

Lemma signature_in_range_witness :
  (in_range (Q Toy.dsa_key) 61 /\ in_range (Q Toy.dsa_key) 50)
  /\ (in_range 251 225 /\ in_range 251 68).
Proof.
  split.
  - destruct (proj1 (signature_in_range Toy.ModInverse Toy.Exp (C := Toy.curve))
                    10%nat Toy.dsa_key Toy.digest Toy.alg _
                    Toy_SignDSA_run eq_refl)
      as (r & s & Er & Es & Hr & Hs).
    simpl in Er, Es. injection Er as <-. injection Es as <-.
    split; assumption.
  - destruct (proj2 (signature_in_range Toy.ModInverse Toy.Exp (C := Toy.curve))
                    10%nat Toy.ecdsa_key Toy.digest Toy.alg _
                    Toy_SignECDSA_run eq_refl)
      as (r & s & Er & Es & Hr & Hs).
    simpl in Er, Es. injection Er as <-. injection Es as <-.
    split; assumption.
Defined.

Lemma SignDSA_invalid_parameters_witness :
  SignDSA Toy.ModInverse Toy.Exp 0 Toy.dsa_key_unaligned Toy.digest
          Toy.alg_empty
  = (Returned, {| sig_r := None; sig_s := None;
                  sig_err := Some ErrInvalidPublicKey |})
  /\ sig_err (snd (SignDSA Toy.ModInverse Toy.Exp 10 Toy.dsa_key Toy.digest
                           Toy.alg)) = None.
Proof.
  split.
  - apply (proj1 (SignDSA_invalid_parameters Toy.ModInverse Toy.Exp
                    Toy.dsa_key_unaligned)).
    discriminate.
  - apply (proj1 (proj2 (SignDSA_invalid_parameters Toy.ModInverse Toy.Exp
                           Toy.dsa_key))).
    reflexivity.
Defined.


(** Two runs on the small instance, with different fuel and different
    stale values in [r] and [s]: the same candidate is accepted and the
    same [(r, s)] is left. *)
Example generateSecret_deterministic_run :
  accepted 3 251 7 Toy.alg Toy.digest
    (dsa_test Toy.ModInverse Toy.Exp Toy.dsa_key Toy.digest) (None, None)
  = Some 160
  /\ accepted 10 251 7 Toy.alg Toy.digest
       (dsa_test Toy.ModInverse Toy.Exp Toy.dsa_key Toy.digest)
       (Some 5, Some 9)
     = Some 160
  /\ generateSecret 10 251 7 Toy.alg Toy.digest
       (dsa_test Toy.ModInverse Toy.Exp Toy.dsa_key Toy.digest)
       (Some 5, Some 9)
     = (Returned, (Some 61, Some 50)).
Proof. vm_compute. repeat split; reflexivity. Qed.

(** * Further properties of the converters *)

(** Two byte strings of one length that decode to the same integer are
    the same string. *)
Lemma SetBytes_inj (a : bytes) : forall b,
  length a = length b -> big.SetBytes a = big.SetBytes b -> a = b.
Proof.
  induction a as [|x a IH]; intros [|y b] Hlen Hval; try discriminate Hlen.
  - reflexivity.
  - injection Hlen as Hlen.
    rewrite !SetBytes_cons in Hval.
    assert (Hb : blen a = blen b) by (unfold blen; now rewrite Hlen).
    rewrite Hb in Hval.
    pose proof (SetBytes_range a) as Ha. rewrite Hb in Ha.
    pose proof (SetBytes_range b) as Hb'.
    pose proof (byte_val_range x). pose proof (byte_val_range y).
    assert (Hxy : byte_val x = byte_val y) by nia.
    rewrite Hxy in Hval.
    f_equal; [now apply byte_val_inj|apply IH; [exact Hlen|lia]].
Qed.

Lemma BitLen_opp (x : Z) : big.BitLen (- x) = big.BitLen x.
Proof.
  unfold big.BitLen. rewrite Z.abs_opp.
  destruct (Z.eqb_spec x 0), (Z.eqb_spec (- x) 0); try lia; reflexivity.
Qed.

Lemma ceil8 (n : Z) : 0 <= n -> 0 <= (n + 7) / 8 /\ n <= 8 * ((n + 7) / 8) < n + 8.
Proof.
  intros Hn. pose proof (Z.div_mod (n + 7) 8).
  pose proof (Z.mod_pos_bound (n + 7) 8). lia.
Qed.

Lemma BitLen_pos (q : Z) :
  0 < q ->
  1 <= big.BitLen q /\ 2 ^ (big.BitLen q - 1) <= q < 2 ^ big.BitLen q.
Proof.
  intros Hq. split.
  - unfold big.BitLen. destruct (Z.eqb_spec q 0); [lia|].
    pose proof (Z.log2_nonneg (Z.abs q)). lia.
  - pose proof (BitLen_bounds q) as H.
    rewrite Z.abs_eq in H by lia. apply H. lia.
Qed.

(** X1. A negative [rolen] makes [int2octets] panic, whatever the value:
    no encoding is shorter than [rolen], so the drop branch is taken and
    [make([]byte, rolen)] fails. [bits2octets], which ends in
    [int2octets], panics then as well. *)
Theorem int2octets_negative_rolen (v rolen : Z) (input : bytes) (q qlen : Z) :
  rolen < 0 ->
  int2octets v rolen = None
  /\ bits2octets input q qlen rolen = None.
Proof.
  intros Hr.
  assert (H : forall w, int2octets w rolen = None).
  { intros w. unfold int2octets, make.
    pose proof (blen_nonneg (big.Bytes w)).
    destruct (Z.ltb_spec (blen (big.Bytes w)) rolen); [lia|].
    destruct (Z.gtb_spec (blen (big.Bytes w)) rolen); [|lia].
    destruct (Z.ltb_spec rolen 0); [reflexivity|lia]. }
  split; [apply H|].
  rewrite bits2octets_cases.
  destruct (bits2int input qlen - q <? 0); apply H.
Qed.

Lemma int2octets_negative_rolen_witness :
  int2octets 5 (-1) = None /\ bits2octets [x05] 7 3 (-1) = None.
Proof.
  apply (int2octets_negative_rolen 5 (-1) [x05] 7 3). reflexivity.
Defined.

(** X2. The sign of the value is dropped: [int2octets] encodes [|v|], so a
    value and its opposite give the same bytes, which decode to
    [|v| mod 256^rolen]. *)
Theorem int2octets_sign (v rolen : Z) :
  int2octets (- v) rolen = int2octets v rolen
  /\ (0 <= rolen ->
        exists out, int2octets v rolen = Some out
                    /\ blen out = rolen
                    /\ big.SetBytes out = Z.abs v mod 256 ^ rolen).
Proof.
  split; [|apply int2octets_total].
  unfold int2octets, big.Bytes. now rewrite BitLen_opp, Z.abs_opp.
Qed.

Lemma int2octets_sign_witness :
  int2octets (- 258) 3 = Some [x00; x01; x02].
Proof.
  exact (eq_trans (proj1 (int2octets_sign 258 3)) eq_refl).
Defined.

(** X3. Encoding what a byte string decodes to, at the length of that
    string, gives the string back. *)
Theorem int2octets_SetBytes (b : bytes) :
  int2octets (big.SetBytes b) (blen b) = Some b.
Proof.
  destruct (int2octets_total (big.SetBytes b) (blen b) (blen_nonneg b))
    as (out & E & Hlen & Hval).
  rewrite E. f_equal. apply SetBytes_inj.
  - unfold blen in Hlen. lia.
  - pose proof (SetBytes_range b).
    rewrite Hval, Z.abs_eq, Z.mod_small; lia.
Qed.

(** X4. Decoding what [int2octets] encodes: a value below [256^rolen] comes
    back from [bits2int] at any bit length of at least [8 * rolen]. *)
Theorem bits2int_int2octets (v rolen qlen : Z) :
  0 <= rolen -> 0 <= v < 256 ^ rolen -> 8 * rolen <= qlen ->
  exists out, int2octets v rolen = Some out
              /\ blen out = rolen
              /\ bits2int out qlen = v.
Proof.
  intros Hr Hv Hq.
  destruct (int2octets_total v rolen Hr) as (out & E & Hlen & Hval).
  exists out. repeat split; trivial.
  unfold bits2int. rewrite Hlen.
  destruct (Z.gtb_spec (rolen * 8) qlen); [lia|].
  rewrite Hval, Z.abs_eq, Z.mod_small; lia.
Qed.

Lemma bits2int_int2octets_witness :
  exists out, int2octets 4660 3 = Some out /\ bits2int out 24 = 4660.
Proof.
  destruct (bits2int_int2octets 4660 3 24) as (out & E & _ & Hv).
  - discriminate.
  - split; [discriminate|reflexivity].
  - discriminate.
  - exists out. split; assumption.
Defined.

Lemma bits2int_app (a b : bytes) (qlen : Z) :
  qlen <= 8 * blen a -> bits2int (a ++ b) qlen = bits2int a qlen.
Proof.
  intros Hq. unfold bits2int, big.Rsh.
  pose proof (blen_nonneg a) as Ha. pose proof (blen_nonneg b) as Hb.
  rewrite blen_app, SetBytes_app.
  pose proof (SetBytes_range b) as Rb.
  assert (Ea : (if blen a * 8 >? qlen
                then Z.shiftr (big.SetBytes a) (blen a * 8 - qlen)
                else big.SetBytes a)
               = big.SetBytes a / 2 ^ (blen a * 8 - qlen)).
  { destruct (Z.gtb_spec (blen a * 8) qlen).
    - apply Z.shiftr_div_pow2. lia.
    - replace (blen a * 8 - qlen) with 0 by lia.
      now rewrite Z.pow_0_r, Z.div_1_r. }
  rewrite Ea.
  destruct (Z.gtb_spec ((blen a + blen b) * 8) qlen) as [Hgt|Hle].
  - rewrite Z.shiftr_div_pow2 by lia.
    replace ((blen a + blen b) * 8 - qlen)
      with (8 * blen b + (blen a * 8 - qlen)) by lia.
    rewrite Z.pow_add_r, <- pow256 by lia.
    assert (0 < 256 ^ blen b) by (apply Z.pow_pos_nonneg; lia).
    assert (0 < 2 ^ (blen a * 8 - qlen)) by (apply Z.pow_pos_nonneg; lia).
    rewrite <- Z.div_div by lia.
    rewrite Z.div_add_l by lia.
    rewrite (Z.div_small (big.SetBytes b)) by lia.
    now rewrite Z.add_0_r.
  - destruct b as [|y b].
    + change (blen []) with 0 in *.
      replace (blen a * 8 - qlen) with 0 by lia.
      rewrite SetBytes_nil, !Z.pow_0_r, Z.div_1_r. lia.
    + exfalso. rewrite blen_cons in Hle.
      pose proof (blen_nonneg b). lia.
Qed.

(** X5. [bits2int] looks at the first [qlen] bits only: bytes appended to an
    input that already has [qlen] bits do not change the result, and an
    input may be cut to any [n] leading bytes with [8 * n >= qlen]. *)
Theorem bits2int_prefix (a b : bytes) (qlen : Z) (n : nat) :
  (qlen <= 8 * blen a -> bits2int (a ++ b) qlen = bits2int a qlen)
  /\ (qlen <= 8 * Z.of_nat n -> (n <= length a)%nat ->
        bits2int (firstn n a) qlen = bits2int a qlen).
Proof.
  split; [apply bits2int_app|].
  intros Hq Hn.
  rewrite <- (firstn_skipn n a) at 2.
  symmetry. apply bits2int_app.
  unfold blen. rewrite length_firstn. lia.
Qed.

Lemma bits2int_prefix_witness :
  bits2int ([xab; xcd] ++ [xef; x01]) 12 = bits2int [xab; xcd] 12
  /\ bits2int (firstn 2 [xab; xcd; xef]) 12 = bits2int [xab; xcd; xef] 12.
Proof.
  split.
  - apply (proj1 (bits2int_prefix [xab; xcd] [xef; x01] 12 0)). discriminate.
  - apply (proj2 (bits2int_prefix [xab; xcd; xef] [] 12 2)).
    + discriminate.
    + repeat constructor.
Defined.

(** X6. Whatever the input, [bits2int] is a non-negative integer of at most
    [qlen] bits. *)
Theorem bits2int_bounds (input : bytes) (qlen : Z) :
  0 <= qlen -> 0 <= bits2int input qlen < 2 ^ qlen.
Proof.
  intros Hq. split; [apply bits2int_nonneg|now apply bits2int_lt].
Qed.

Lemma bits2int_bounds_witness : 0 <= bits2int [xff; xff; xff] 5 < 2 ^ 5.
Proof.
  apply (bits2int_bounds [xff; xff; xff] 5). discriminate.
Defined.

(** X7. For a positive [q] of bit length [qlen] and [rolen = ceil(qlen/8)],
    the bytes returned by [bits2octets] decode to
    [bits2int(input, qlen) mod q]: the one subtraction is a full
    reduction modulo [q]. *)
Theorem bits2octets_mod (input : bytes) (q qlen rolen : Z) :
  0 < q -> qlen = big.BitLen q -> rolen = (qlen + 7) / 8 ->
  exists out, bits2octets input q qlen rolen = Some out
              /\ blen out = rolen
              /\ big.SetBytes out = bits2int input qlen mod q.
Proof.
  intros Hq -> ->.
  destruct (BitLen_pos q Hq) as [Hlen Hb].
  set (qlen := big.BitLen q) in *.
  destruct (ceil8 qlen) as [Hro Hcov]; [lia|].
  set (rolen := (qlen + 7) / 8) in *.
  set (z1 := bits2int input qlen).
  assert (Hz1 : 0 <= z1 < 2 ^ qlen).
  { split; [apply bits2int_nonneg|apply bits2int_lt; lia]. }
  assert (Hpow : 2 ^ qlen = 2 * 2 ^ (qlen - 1)).
  { rewrite <- Z.pow_succ_r by lia. f_equal. lia. }
  assert (Hfit : 2 ^ qlen <= 256 ^ rolen).
  { rewrite pow256 by lia. apply Z.pow_le_mono_r; lia. }
  assert (Hm : 0 <= z1 mod q < q) by (apply Z.mod_pos_bound; lia).
  assert (Ew : bits2octets input q qlen rolen = int2octets (z1 mod q) rolen).
  { rewrite bits2octets_cases. fold z1.
    destruct (Z.ltb_spec (z1 - q) 0).
    - now rewrite Z.mod_small by lia.
    - f_equal. apply (Z.mod_unique_pos z1 q 1 (z1 - q)); lia. }
  destruct (int2octets_total (z1 mod q) rolen Hro) as (out & E & Hl & Hv).
  exists out. rewrite Ew. repeat split; trivial.
  rewrite Hv, Z.abs_eq, Z.mod_small; lia.
Qed.

Lemma bits2octets_mod_witness :
  exists out, bits2octets [xff; x00] 201 8 1 = Some out
              /\ big.SetBytes out = 255 mod 201.
Proof.
  destruct (bits2octets_mod [xff; x00] 201 8 1) as (out & E & _ & Hv);
    [reflexivity|reflexivity|reflexivity|].
  exists out. split; assumption.
Defined.

(** * Further properties of [hashToInt] *)

Section HashToIntFacts.

Context {C : Type} `{Curve C}.

(** [hashToInt] is [bits2int] of the hash cut to [orderBytes] bytes. *)
Lemma hashToInt_cut (hash : bytes) (c : C) :
  let orderBits := big.BitLen (Params_N c) in
  let orderBytes := (orderBits + 7) / 8 in
  hashToInt hash c = bits2int (cut_hash hash orderBytes) orderBits.
Proof.
  intros ob oby.
  assert (G : forall h : bytes,
             (if blen h * 8 - ob >? 0
              then big.Rsh (big.SetBytes h) (blen h * 8 - ob)
              else big.SetBytes h) = bits2int h ob).
  { intros h. unfold bits2int.
    destruct (Z.gtb_spec (blen h * 8 - ob) 0);
      destruct (Z.gtb_spec (blen h * 8) ob); try lia; reflexivity. }
  pose proof (BitLen_nonneg (Params_N c)) as Hob.
  unfold hashToInt, int_div. cbv zeta.
  rewrite Z.quot_div_nonneg by lia.
  apply G.
Qed.

(** X8. The integer [hashToInt] returns is non-negative and has at most as
    many bits as the curve order; a hash of at most that many bits is
    taken whole, as [SetBytes] reads it. *)
Theorem hashToInt_bounds (hash : bytes) (c : C) :
  let orderBits := big.BitLen (Params_N c) in
  0 <= hashToInt hash c < 2 ^ orderBits
  /\ (blen hash * 8 <= orderBits -> hashToInt hash c = big.SetBytes hash).
Proof.
  intros ob. rewrite hashToInt_cut. fold ob.
  pose proof (BitLen_nonneg (Params_N c)) as Hob. fold ob in Hob.
  split.
  - split; [apply bits2int_nonneg|apply bits2int_lt; exact Hob].
  - intros Hshort.
    destruct (ceil8 ob Hob) as [_ Hc].
    unfold cut_hash.
    destruct (Z.gtb_spec (blen hash) ((ob + 7) / 8)); [lia|].
    unfold bits2int.
    destruct (Z.gtb_spec (blen hash * 8) ob); [lia|reflexivity].
Qed.

(** X9. [hashToInt] reads the first [orderBytes] bytes of the hash only:
    whatever follows them is ignored. *)
Theorem hashToInt_prefix (hash extra : bytes) (c : C) :
  (big.BitLen (Params_N c) + 7) / 8 <= blen hash ->
  hashToInt (hash ++ extra) c = hashToInt hash c.
Proof.
  intros Hlen. rewrite !hashToInt_cut.
  set (oby := (big.BitLen (Params_N c) + 7) / 8) in *.
  assert (Hoby : 0 <= oby).
  { apply (ceil8 (big.BitLen (Params_N c))). apply BitLen_nonneg. }
  assert (Hn : (Z.to_nat oby <= length hash)%nat) by (unfold blen in Hlen; lia).
  assert (Ecut : firstn (Z.to_nat oby) (hash ++ extra)
                 = firstn (Z.to_nat oby) hash).
  { rewrite firstn_app.
    replace (Z.to_nat oby - length hash)%nat with O by lia.
    simpl. apply app_nil_r. }
  assert (Eh : cut_hash hash oby = firstn (Z.to_nat oby) hash).
  { unfold cut_hash. destruct (Z.gtb_spec (blen hash) oby); [reflexivity|].
    symmetry. apply firstn_all2. unfold blen in *. lia. }
  rewrite Eh. f_equal. unfold cut_hash.
  rewrite blen_app. pose proof (blen_nonneg extra).
  destruct (Z.gtb_spec (blen hash + blen extra) oby); [exact Ecut|].
  destruct extra as [|y extra];
    [|rewrite blen_cons in *; pose proof (blen_nonneg extra); lia].
  rewrite app_nil_r. symmetry. apply firstn_all2. unfold blen in *. lia.
Qed.

End HashToIntFacts.

Lemma hashToInt_prefix_witness :
  hashToInt ([x12] ++ [x34; x56]) Toy.Curve251 = hashToInt [x12] Toy.Curve251.
Proof.
  apply (hashToInt_prefix [x12] [x34; x56] Toy.Curve251). discriminate.
Defined.

Lemma hashToInt_bounds_witness :
  hashToInt [x12] Toy.Curve251 = big.SetBytes [x12].
Proof.
  apply (proj2 (hashToInt_bounds [x12] Toy.Curve251)). discriminate.
Defined.

(** * Further properties of the generator *)

Lemma int_shr_3 (n : Z) : int_shr n 3 = n / 8.
Proof. unfold int_shr. now rewrite Z.shiftr_div_pow2 by lia. Qed.

Lemma rolen_nonneg (q : Z) : 0 <= int_shr (big.BitLen q + 7) 3.
Proof.
  rewrite int_shr_3. apply (ceil8 (big.BitLen q)). apply BitLen_nonneg.
Qed.

Lemma bits2octets_total (input : bytes) (q qlen rolen : Z) :
  0 <= rolen ->
  exists out, bits2octets input q qlen rolen = Some out /\ blen out = rolen.
Proof.
  intros Hr. rewrite bits2octets_cases.
  destruct (bits2int input qlen - q <? 0);
    [destruct (int2octets_total (bits2int input qlen) rolen Hr)
       as (out & E & Hl & _)
    |destruct (int2octets_total (bits2int input qlen - q) rolen Hr)
       as (out & E & Hl & _)];
    exists out; split; assumption.
Qed.

Lemma seed_some (q x : Z) (alg : HashAlgorithm) (hash : bytes) :
  0 <= Size alg -> exists k v, seed q x alg hash = Some (k, v).
Proof.
  intros Hs. unfold seed, bytes_Repeat.
  destruct (Z.ltb_spec (Size alg) 0); [lia|].
  pose proof (rolen_nonneg q) as Hr.
  destruct (int2octets_total x _ Hr) as (b & -> & _).
  destruct (bits2octets_total hash q (big.BitLen q) _ Hr) as (bh & -> & _).
  eauto.
Qed.

Lemma seed_none (q x : Z) (alg : HashAlgorithm) (hash : bytes) :
  Size alg < 0 -> seed q x alg hash = None.
Proof.
  intros Hs. unfold seed, bytes_Repeat.
  destruct (Z.ltb_spec (Size alg) 0); [reflexivity|lia].
Qed.

Lemma loopH_panicked {St : Type} (alg : HashAlgorithm) (q qlen : Z)
      (test : Z -> St -> verdict * St) (inner : nat) (fuel : nat) :
  forall k v st st',
    loopH fuel inner alg q qlen test k v st = (Panicked, st') ->
    exists c st0, in_range q c /\ test c st0 = (Crash, st').
Proof.
  induction fuel as [|f IH]; intros k v st st' E.
  - discriminate E.
  - simpl in E. unfold iterationH in E.
    destruct (stepH2 inner alg k v [] qlen) as [[v1 t]|]; [|discriminate E].
    unfold tryCandidate in E.
    destruct ((big.Cmp (bits2int t qlen) 1 >=? 0)
              && (big.Cmp (bits2int t qlen) q <? 0)) eqn:R.
    + apply in_range_iff in R.
      destruct (test (bits2int t qlen) st) as [[ | | ] st1] eqn:Et.
      * discriminate E.
      * eapply IH; eauto.
      * injection E as <-. eauto.
    + eapply IH; eauto.
Qed.

(** X10. A hash algorithm that reports a negative size makes
    [generateSecret] panic at once ([bytes.Repeat] with a negative
    count): for every fuel, before any call of the predicate and with
    the captured state untouched. Past the seeding steps A to D the
    function panics only if the predicate does, on a candidate in
    [[1, q)]: the loop itself never panics. *)
Theorem generateSecret_panics {St : Type} (fuel : nat) (q x : Z)
        (alg : HashAlgorithm) (hash : bytes)
        (test : Z -> St -> verdict * St) (st : St) :
  (Size alg < 0 ->
     generateSecret fuel q x alg hash test st = (Panicked, st))
  /\ (fst (generateSecret fuel q x alg hash test st) = Panicked ->
        seed q x alg hash = None
        \/ exists c st0, in_range q c /\ fst (test c st0) = Crash).
Proof.
  unfold generateSecret. split.
  - intros Hs. now rewrite seed_none.
  - intros E.
    destruct (seed q x alg hash) as [[k v]|]; [right|now left].
    destruct (loopH fuel fuel alg q (big.BitLen q) test k v st)
      as [fin st'] eqn:El.
    simpl in E. subst fin.
    apply loopH_panicked in El. destruct El as (c & st0 & Hc & Et).
    exists c, st0. rewrite Et. auto.
Qed.

Lemma generateSecret_panics_witness :
  generateSecret 5 251 7 {| Size := -1; hmac := fun _ _ => [x00] |}
                 Toy.digest reject_all tt
  = (Panicked, tt).
Proof.
  apply (proj1 (generateSecret_panics 5 251 7
                  {| Size := -1; hmac := fun _ _ => [x00] |}
                  Toy.digest reject_all tt)).
  reflexivity.
Defined.

Lemma loopH_small_order {St : Type} (alg : HashAlgorithm) (q qlen : Z)
      (test : Z -> St -> verdict * St) (inner : nat) (fuel : nat) :
  0 <= qlen < 8 ->
  forall k v st,
    loopH fuel inner alg q qlen test k v st = (Unfinished, st).
Proof.
  intros Hq.
  assert (Hd : int_div qlen 8 = 0).
  { unfold int_div. apply Z.quot_small. lia. }
  assert (Hs : forall k v, stepH2 inner alg k v [] qlen = Some (v, [])).
  { intros k v. destruct inner; simpl; rewrite Hd; reflexivity. }
  assert (Hc : bits2int [] qlen = 0).
  { unfold bits2int. change (blen [] * 8) with 0.
    destruct (Z.gtb_spec 0 qlen); [lia|reflexivity]. }
  induction fuel as [|f IH]; intros k v st; [reflexivity|].
  simpl. unfold iterationH. rewrite Hs, Hc.
  unfold tryCandidate. simpl. apply IH.
Qed.

(** X11. A group order of fewer than 8 bits (so [q < 128]) makes [qlen/8]
    zero: [T] stays empty, every candidate is 0, and the loop goes on for
    ever without calling the predicate once. No fuel lets the run return,
    and the captured state is untouched. *)
Theorem generateSecret_small_order {St : Type} (fuel : nat) (q x : Z)
        (alg : HashAlgorithm) (hash : bytes)
        (test : Z -> St -> verdict * St) (st : St) :
  big.BitLen q < 8 ->
  generateSecret fuel q x alg hash test st
  = (if Size alg <? 0 then Panicked else Unfinished, st).
Proof.
  intros Hq. unfold generateSecret.
  destruct (Z.ltb_spec (Size alg) 0) as [Hs|Hs].
  - now rewrite seed_none.
  - destruct (seed_some q x alg hash Hs) as (k & v & ->).
    apply loopH_small_order. pose proof (BitLen_nonneg q). lia.
Qed.

Lemma generateSecret_small_order_witness :
  generateSecret 50 127 7 Toy.alg Toy.digest
                 (logged (fun k (st : unit) => (Accept, st))) (tt, [])
  = (Unfinished, (tt, [])).
Proof.
  apply (generateSecret_small_order 50 127 7 Toy.alg Toy.digest
           (logged (fun k (st : unit) => (Accept, st))) (tt, [])).
  reflexivity.
Defined.

Lemma seed_digest_tail (q x : Z) (alg : HashAlgorithm) (h extra : bytes) :
  big.BitLen q <= 8 * blen h ->
  seed q x alg (h ++ extra) = seed q x alg h.
Proof.
  intros Hq. unfold seed.
  now rewrite !bits2octets_cases, bits2int_app.
Qed.

(** X12. The generator reads the first [qlen] bits of the digest only: bytes
    after them change neither the candidates nor the outcome (for one
    and the same predicate). *)
Theorem generateSecret_digest_tail {St : Type} (fuel : nat) (q x : Z)
        (alg : HashAlgorithm) (h extra : bytes)
        (test : Z -> St -> verdict * St) (st : St) :
  big.BitLen q <= 8 * blen h ->
  generateSecret fuel q x alg (h ++ extra) test st
  = generateSecret fuel q x alg h test st.
Proof.
  intros Hq. unfold generateSecret. now rewrite seed_digest_tail.
Qed.

Lemma generateSecret_digest_tail_witness :
  generateSecret 10 251 7 Toy.alg ([x12] ++ [x34; x56])
                 (logged reject_all) (tt, [])
  = generateSecret 10 251 7 Toy.alg [x12] (logged reject_all) (tt, []).
Proof.
  apply (generateSecret_digest_tail 10 251 7 Toy.alg [x12] [x34; x56]
           (logged reject_all) (tt, [])).
  discriminate.
Defined.

Lemma int2octets_congr (x x' rolen : Z) :
  0 <= rolen ->
  Z.abs x mod 256 ^ rolen = Z.abs x' mod 256 ^ rolen ->
  int2octets x rolen = int2octets x' rolen.
Proof.
  intros Hr Hx.
  destruct (int2octets_total x rolen Hr) as (o & E & Hl & Hv).
  destruct (int2octets_total x' rolen Hr) as (o' & E' & Hl' & Hv').
  rewrite E, E'. f_equal. apply SetBytes_inj.
  - unfold blen in *. lia.
  - congruence.
Qed.

(** X13. The private key enters through [int2octets(x, rolen)] alone, so only
    [|x| mod 256^rolen] matters: keys that agree there (a key and its
    opposite, a key and that key plus [256^rolen]) drive the generator
    in the same way. *)
Theorem generateSecret_key_mod {St : Type} (fuel : nat) (q x x' : Z)
        (alg : HashAlgorithm) (hash : bytes)
        (test : Z -> St -> verdict * St) (st : St) :
  let rolen := (big.BitLen q + 7) / 8 in
  Z.abs x mod 256 ^ rolen = Z.abs x' mod 256 ^ rolen ->
  generateSecret fuel q x alg hash test st
  = generateSecret fuel q x' alg hash test st.
Proof.
  intros rolen Hx. unfold generateSecret, seed.
  rewrite int_shr_3. fold rolen.
  rewrite (int2octets_congr x x' rolen); [reflexivity| |exact Hx].
  apply (ceil8 (big.BitLen q)). apply BitLen_nonneg.
Qed.

Lemma generateSecret_key_mod_witness :
  generateSecret 10 251 7 Toy.alg Toy.digest (logged reject_all) (tt, [])
  = generateSecret 10 251 263 Toy.alg Toy.digest (logged reject_all) (tt, []).
Proof.
  apply (generateSecret_key_mod 10 251 7 263 Toy.alg Toy.digest
           (logged reject_all) (tt, [])).
  reflexivity.
Defined.

Lemma loopH_candidates {St : Type} (alg : HashAlgorithm) (q qlen : Z)
      (test : Z -> St -> verdict * St) (inner : nat) (fuel : nat) :
  forall k v st log log0,
  exists new later,
    snd (snd (loopH fuel inner alg q qlen (logged test) k v (st, log)))
    = new ++ log
    /\ snd (snd (loopH fuel inner alg q qlen (logged reject_all) k v
                       (tt, log0)))
       = later ++ new ++ log0.
Proof.
  induction fuel as [|f IH]; intros k v st log log0.
  - exists [], []. split; reflexivity.
  - simpl loopH. unfold iterationH.
    destruct (stepH2 inner alg k v [] qlen) as [[v1 t]|];
      [|exists [], []; split; reflexivity].
    set (c := bits2int t qlen). unfold tryCandidate.
    destruct ((big.Cmp c 1 >=? 0) && (big.Cmp c q <? 0)).
    + unfold logged at 1 3. unfold reject_all at 1.
      destruct (test c st) as [[ | | ] st'].
      * destruct (IH (mac alg k (v1 ++ [x00]))
                     (mac alg (mac alg k (v1 ++ [x00])) v1)
                     st' log (c :: log0))
          as (new & later & _ & E2).
        exists [c], (later ++ new). split; [reflexivity|].
        cbv zeta. rewrite E2. now rewrite <- !app_assoc.
      * destruct (IH (mac alg k (v1 ++ [x00]))
                     (mac alg (mac alg k (v1 ++ [x00])) v1)
                     st' (c :: log) (c :: log0))
          as (new & later & E1 & E2).
        exists (new ++ [c]), later. cbv zeta. rewrite E1, E2.
        split; now rewrite <- !app_assoc.
      * destruct (IH (mac alg k (v1 ++ [x00]))
                     (mac alg (mac alg k (v1 ++ [x00])) v1)
                     st' log (c :: log0))
          as (new & later & _ & E2).
        exists [c], (later ++ new). split; [reflexivity|].
        cbv zeta. rewrite E2. now rewrite <- !app_assoc.
    + cbv zeta. apply IH.
Qed.

(** X14. The candidates do not depend on the predicate: what any predicate is
    shown, in order, is an initial part of what the predicate that always
    answers false is shown with the same fuel. (Logs are latest first,
    so the shorter log is the tail of the longer.) *)
Theorem generateSecret_candidates {St : Type} (fuel : nat) (q x : Z)
        (alg : HashAlgorithm) (hash : bytes)
        (test : Z -> St -> verdict * St) (st : St) :
  exists later,
    snd (snd (generateSecret fuel q x alg hash (logged reject_all) (tt, [])))
    = later
      ++ snd (snd (generateSecret fuel q x alg hash (logged test) (st, []))).
Proof.
  unfold generateSecret.
  destruct (seed q x alg hash) as [[k v]|]; [|exists []; reflexivity].
  destruct (loopH_candidates alg q (big.BitLen q) test fuel fuel k v st [] [])
    as (new & later & E1 & E2).
  exists later. rewrite E1, E2. now rewrite !app_nil_r.
Qed.

(** On the small instance: the candidates in range among the first six
    turns, of which a predicate that accepts below 100 sees the first
    two. *)
Example generateSecret_candidates_run :
  snd (snd (generateSecret 6 251 7 Toy.alg Toy.digest
              (logged reject_all) (tt, [])))
  = [224; 64; 192] ++ [32; 160].
Proof. vm_compute. reflexivity. Qed.

(** What a finished inner loop returns, for a MAC of fixed output
    length. *)
Lemma stepH2_result (alg : HashAlgorithm) (qlen holen : Z) (k v v' t : bytes)
      (inner : nat) :
  0 < holen ->
  (forall k' m, blen (mac alg k' m) = holen) ->
  stepH2 inner alg k v [] qlen = Some (v', t) ->
  v' = spec_V alg k v (spec_rounds qlen holen)
  /\ t = spec_T alg k v (spec_rounds qlen holen).
Proof.
  intros Hpos Hlen E.
  set (n := spec_rounds qlen holen).
  destruct (spec_rounds_least qlen holen Hpos) as [Hreach Hbelow].
  fold n in Hreach, Hbelow.
  assert (E' : stepH2 (Nat.max inner n) alg k v [] qlen
               = Some (spec_V alg k v n, spec_T alg k v n)).
  { apply (stepH2_rounds alg qlen k n (Nat.max inner n) v []).
    - intros m Hm. simpl. rewrite (blen_spec_T alg holen) by exact Hlen.
      apply Hbelow. lia.
    - simpl. now rewrite (blen_spec_T alg holen).
    - lia. }
  rewrite (stepH2_mono alg qlen k inner (Nat.max inner n) v [] _ E) in E'
    by lia.
  now injection E' as -> ->.
Qed.

(** X15. Step H2 collects whole MAC outputs and stops at the first count that
    reaches [qlen/8] bytes: with outputs of [holen > 0] bytes, [T] has a
    multiple of [holen] bytes, at least [qlen/8] and fewer than
    [qlen/8 + holen]. *)
Theorem stepH2_length (alg : HashAlgorithm) (qlen holen : Z)
        (k v v' t : bytes) (inner : nat) :
  0 < holen ->
  (forall k' m, blen (mac alg k' m) = holen) ->
  stepH2 inner alg k v [] qlen = Some (v', t) ->
  blen t = Z.of_nat (spec_rounds qlen holen) * holen
  /\ int_div qlen 8 <= blen t < Z.max 0 (int_div qlen 8) + holen.
Proof.
  intros Hpos Hlen E.
  destruct (stepH2_result alg qlen holen k v v' t inner Hpos Hlen E)
    as [_ ->].
  rewrite (blen_spec_T alg holen) by exact Hlen.
  destruct (spec_rounds_least qlen holen Hpos) as [Hreach Hbelow].
  split; [reflexivity|]. split; [exact Hreach|].
  set (n := Z.of_nat (spec_rounds qlen holen)) in *.
  destruct (Z.eq_dec n 0) as [->|Hn]; [lia|].
  assert (0 <= n) by (subst n; lia).
  pose proof (Hbelow (n - 1)). nia.
Qed.

Lemma stepH2_length_witness :
  blen [x7b; x41] = Z.of_nat (spec_rounds 16 1) * 1
  /\ int_div 16 8 <= blen [x7b; x41] < Z.max 0 (int_div 16 8) + 1.
Proof.
  apply (stepH2_length Toy.alg 16 1 [x00] [x01] [x41] [x7b; x41] 5).
  - reflexivity.
  - exact Toy_alg_len.
  - reflexivity.
Defined.

(** X16. The loop bound counts whole bytes. When [holen] divides [qlen/8],
    [T] has exactly [qlen/8] bytes, is decoded without a shift, and the
    candidate has at most [8 * (qlen/8)] bits: for a [qlen] that is not a
    multiple of 8 its top [qlen mod 8] bits are always zero. *)
Theorem candidate_whole_bytes (alg : HashAlgorithm) (qlen holen : Z)
        (k v v' t : bytes) (inner : nat) :
  0 < holen ->
  (forall k' m, blen (mac alg k' m) = holen) ->
  0 <= qlen ->
  (int_div qlen 8) mod holen = 0 ->
  stepH2 inner alg k v [] qlen = Some (v', t) ->
  blen t = int_div qlen 8
  /\ bits2int t qlen = big.SetBytes t
  /\ bits2int t qlen < 2 ^ (8 * int_div qlen 8).
Proof.
  intros Hpos Hlen Hq Hdiv E.
  destruct (stepH2_result alg qlen holen k v v' t inner Hpos Hlen E)
    as [_ Et].
  assert (Hb : blen t = Z.of_nat (spec_rounds qlen holen) * holen).
  { rewrite Et. now apply blen_spec_T. }
  destruct (spec_rounds_least qlen holen Hpos) as [Hreach Hbelow].
  set (n := Z.of_nat (spec_rounds qlen holen)) in *.
  assert (Hd : 0 <= int_div qlen 8 /\ 8 * int_div qlen 8 <= qlen).
  { unfold int_div. rewrite Z.quot_div_nonneg by lia.
    pose proof (Z.div_mod qlen 8). pose proof (Z.mod_pos_bound qlen 8).
    split; [apply Z.div_pos; lia|lia]. }
  assert (Hn : 0 <= n) by (subst n; lia).
  assert (Hex : blen t = int_div qlen 8).
  { rewrite Hb.
    pose proof (Z.div_mod (int_div qlen 8) holen) as Hm.
    rewrite Hdiv in Hm.
    set (m := int_div qlen 8 / holen) in *.
    assert (Hmn : m <= n) by nia.
    destruct (Z.eq_dec n m) as [->|Hne]; [lia|].
    pose proof (Hbelow (n - 1)). nia. }
  split; [exact Hex|].
  assert (Eb : bits2int t qlen = big.SetBytes t).
  { unfold bits2int. rewrite Hex.
    destruct (Z.gtb_spec (int_div qlen 8 * 8) qlen); [lia|reflexivity]. }
  split; [exact Eb|].
  rewrite Eb. pose proof (SetBytes_range t) as Hr.
  rewrite Hex, pow256 in Hr by lia. lia.
Qed.

Lemma candidate_whole_bytes_witness :
  bits2int [x7b] 15 = big.SetBytes [x7b] /\ bits2int [x7b] 15 < 2 ^ 8.
Proof.
  destruct (candidate_whole_bytes Toy.alg 15 1 [x00] [x01] [x7b] [x7b] 5)
    as (_ & E & Hlt).
  - reflexivity.
  - exact Toy_alg_len.
  - discriminate.
  - reflexivity.
  - reflexivity.
  - split; assumption.
Defined.

(** * Further properties of the signers *)

Lemma mul_inverse_mod (a k ki n : Z) :
  0 < n -> (k * ki) mod n = 1 ->
  (((a mod n) * ki) mod n * k) mod n = a mod n.
Proof.
  intros Hn Hinv.
  rewrite Z.mul_mod_idemp_l by lia.
  rewrite <- Z.mul_assoc, Z.mul_mod_idemp_l by lia.
  replace (a * (ki * k)) with (a * (k * ki)) by ring.
  rewrite <- Z.mul_mod_idemp_r, Hinv by lia.
  now rewrite Z.mul_1_r.
Qed.

Lemma Mod_eq (x y z : Z) :
  big.Mod x y = Some z -> 0 < y -> z = x mod y.
Proof.
  unfold big.Mod. destruct (y =? 0); [discriminate|].
  intros [= <-] Hy. now rewrite Z.abs_eq by lia.
Qed.

Section SignerEquations.

Variable ModInverse : Z -> Z -> option Z.
Variable Exp : Z -> Z -> Z -> option Z.
Context {C : Type} `{Curve C}.

(** What an inverse modulo [n > 1] is. *)
Hypothesis ModInverse_ok :
  forall g n i, 1 < n -> ModInverse g n = Some i -> (g * i) mod n = 1.

Lemma dsa_test_equation (priv : dsa_PrivateKey) (hash : bytes) (k : Z)
      (st : rs) (r s : option Z) :
  dsa_test ModInverse Exp priv hash k st = (Accept, (r, s)) ->
  1 < Q priv ->
  exists r0 r' s',
    Exp (G priv) k (P priv) = Some r0
    /\ r = Some r' /\ s = Some s'
    /\ r' = r0 mod Q priv
    /\ (s' * k) mod Q priv = (X priv * r' + big.SetBytes hash) mod Q priv.
Proof.
  unfold dsa_test. intros E Hq. cbv zeta in E.
  destruct (Exp (G priv) k (P priv)) as [r0|]; [|discriminate E].
  destruct (big.Mod r0 (Q priv)) as [r1|] eqn:Er; [|discriminate E].
  destruct (big.Sign r1 =? 0); [discriminate E|].
  destruct (big.Mod (big.Add _ _) (Q priv)) as [s1|] eqn:Es1;
    [|discriminate E].
  destruct (ModInverse k (Q priv)) as [ki|] eqn:Ei; [|discriminate E].
  destruct (big.Mod (big.Mul s1 ki) (Q priv)) as [s2|] eqn:Es2;
    [|discriminate E].
  destruct (big.Sign s2 =? 0); [discriminate E|].
  simpl in E. injection E as <- <-.
  apply Mod_eq in Er, Es1, Es2; try lia.
  apply ModInverse_ok in Ei; [|exact Hq].
  exists r0, r1, s2. repeat split; trivial.
  subst s2 s1. unfold big.Mul, big.Add.
  apply mul_inverse_mod; [lia|exact Ei].
Qed.

Lemma ecdsa_test_equation (priv : ecdsa_PrivateKey C) (hash : bytes) (k : Z)
      (st : rs) (r s : option Z) :
  let c := PublicKey_Curve priv in
  ecdsa_test ModInverse priv hash k st = (Accept, (r, s)) ->
  1 < Params_N c ->
  exists r0 r' s',
    fst (ScalarBaseMult c (big.Bytes k)) = Some r0
    /\ r = Some r' /\ s = Some s'
    /\ r' = r0 mod Params_N c
    /\ (s' * k) mod Params_N c
       = (D priv * r' + hashToInt hash c) mod Params_N c.
Proof.
  intros c E Hq. unfold ecdsa_test in E. cbv zeta in E. fold c in E.
  destruct (fst (ScalarBaseMult c (big.Bytes k))) as [r0|];
    [|discriminate E].
  destruct (big.Mod r0 _) as [r1|] eqn:Er; [|discriminate E].
  destruct (big.Sign r1 =? 0); [discriminate E|].
  destruct (ModInverse k _) as [ki|] eqn:Ei; [|discriminate E].
  destruct (big.Mod (big.Mul _ ki) _) as [s2|] eqn:Es2; [|discriminate E].
  destruct (big.Sign s2 =? 0); [discriminate E|].
  simpl in E. injection E as <- <-.
  apply Mod_eq in Er, Es2; try lia.
  apply ModInverse_ok in Ei; [|exact Hq].
  exists r0, r1, s2. repeat split; trivial.
  subst s2. unfold big.Mul, big.Add.
  rewrite <- (Z.mul_mod_idemp_l (D priv * r1 + _) ki) by lia.
  apply mul_inverse_mod; [lia|exact Ei].
Qed.

(** X17. A signature returned by [SignDSA] satisfies the DSA signing equation
    for some nonce [k] in [[1, Q)]: [r = (G^k mod P) mod Q] and
    [s * k = X * r + z (mod Q)], where [z] is the whole digest read as a
    big-endian integer (no truncation to the length of [Q]). *)
Theorem SignDSA_equation (fuel : nat) (priv : dsa_PrivateKey)
        (hash : bytes) (alg : HashAlgorithm) (sig : signature) :
  SignDSA ModInverse Exp fuel priv hash alg = (Returned, sig) ->
  sig_err sig = None ->
  exists k gk r s,
    in_range (Q priv) k
    /\ Exp (G priv) k (P priv) = Some gk
    /\ sig_r sig = Some r /\ sig_s sig = Some s
    /\ r = gk mod Q priv
    /\ (s * k) mod Q priv = (X priv * r + big.SetBytes hash) mod Q priv.
Proof.
  intros E Herr. unfold SignDSA in E.
  destruct (negb (int_and (big.BitLen (Q priv)) 7 =? 0)).
  { injection E as <-. discriminate Herr. }
  destruct (generateSecret fuel (Q priv) (X priv) alg hash
              (dsa_test ModInverse Exp priv hash) (None, None))
    as [fin [r s]] eqn:Eg.
  injection E as -> <-. simpl.
  apply generateSecret_returned in Eg.
  destruct Eg as (k & st0 & Hk & Et).
  apply dsa_test_equation in Et; [|unfold in_range in Hk; lia].
  destruct Et as (gk & r' & s' & Eexp & -> & -> & Hr & Hs).
  exists k, gk, r', s'. auto 10.
Qed.

(** X18. A signature returned by [SignECDSA] satisfies the ECDSA signing
    equation for some nonce [k] in [[1, N)]: [r] is the first coordinate
    of [ScalarBaseMult(k.Bytes())] reduced modulo [N], and
    [s * k = D * r + e (mod N)] with [e = hashToInt(hash, c)]. *)
Theorem SignECDSA_equation (fuel : nat) (priv : ecdsa_PrivateKey C)
        (hash : bytes) (alg : HashAlgorithm) (sig : signature) :
  SignECDSA ModInverse fuel priv hash alg = (Returned, sig) ->
  let c := PublicKey_Curve priv in
  exists k xk r s,
    in_range (Params_N c) k
    /\ fst (ScalarBaseMult c (big.Bytes k)) = Some xk
    /\ sig_r sig = Some r /\ sig_s sig = Some s /\ sig_err sig = None
    /\ r = xk mod Params_N c
    /\ (s * k) mod Params_N c
       = (D priv * r + hashToInt hash c) mod Params_N c.
Proof.
  intros E c. unfold SignECDSA in E. fold c in E.
  destruct (generateSecret fuel (Params_N c) (D priv) alg hash
              (ecdsa_test ModInverse priv hash) (None, None))
    as [fin [r s]] eqn:Eg.
  injection E as -> <-. simpl.
  apply generateSecret_returned in Eg.
  destruct Eg as (k & st0 & Hk & Et).
  apply ecdsa_test_equation in Et;
    [|fold c; unfold in_range in Hk; lia].
  fold c in Et.
  destruct Et as (xk & r' & s' & Ex & -> & -> & Hr & Hs).
  exists k, xk, r', s'. auto 10.
Qed.

End SignerEquations.

(** X19. [SignECDSA] on a curve whose order has fewer than 8 bits never
    returns: the generator never offers a candidate, and [r] and [s] stay
    nil. *)
Theorem SignECDSA_small_order (ModInverse : Z -> Z -> option Z)
        {C : Type} `{Curve C} (fuel : nat) (priv : ecdsa_PrivateKey C)
        (hash : bytes) (alg : HashAlgorithm) :
  big.BitLen (Params_N (PublicKey_Curve priv)) < 8 ->
  SignECDSA ModInverse fuel priv hash alg
  = (if Size alg <? 0 then Panicked else Unfinished,
     {| sig_r := None; sig_s := None; sig_err := None |}).
Proof.
  intros Hq. unfold SignECDSA.
  assert (E : generateSecret fuel (Params_N (PublicKey_Curve priv)) (D priv)
                alg hash (ecdsa_test ModInverse priv hash) (None, None)
              = (if Size alg <? 0 then Panicked else Unfinished,
                 (None, None))).
  { destruct (seed (Params_N (PublicKey_Curve priv)) (D priv) alg hash)
      as [[k v]|] eqn:Es; unfold generateSecret; rewrite Es.
    - destruct (Z.ltb_spec (Size alg) 0) as [Hs|Hs].
      + now rewrite seed_none in Es.
      + apply loopH_small_order.
        pose proof (BitLen_nonneg (Params_N (PublicKey_Curve priv))). lia.
    - destruct (Z.ltb_spec (Size alg) 0) as [Hs|Hs]; [reflexivity|].
      destruct (seed_some (Params_N (PublicKey_Curve priv)) (D priv)
                          alg hash Hs) as (k & v & Es').
      congruence. }
  cbv zeta. now rewrite E.
Qed.

Lemma Toy_ModInverse_ok (g n i : Z) :
  1 < n -> Toy.ModInverse g n = Some i -> (g * i) mod n = 1.
Proof.
  intros _ E. unfold Toy.ModInverse in E.
  apply find_some in E. destruct E as [_ E].
  now apply Z.eqb_eq in E.
Qed.

Lemma SignDSA_equation_witness :
  exists k gk,
    in_range 251 k /\ Toy.Exp 4 k 503 = Some gk /\ 61 = gk mod 251
    /\ (50 * k) mod 251 = (7 * 61 + big.SetBytes Toy.digest) mod 251.
Proof.
  destruct (SignDSA_equation Toy.ModInverse Toy.Exp Toy_ModInverse_ok
              10 Toy.dsa_key Toy.digest Toy.alg _ Toy_SignDSA_run eq_refl)
    as (k & gk & r & s & Hk & Eg & Er & Es & Hr & Hs).
  simpl in Er, Es. injection Er as <-. injection Es as <-.
  exists k, gk. auto.
Defined.

Lemma SignECDSA_equation_witness :
  exists k xk,
    in_range 251 k
    /\ fst (ScalarBaseMult Toy.Curve251 (big.Bytes k)) = Some xk
    /\ 225 = xk mod 251
    /\ (68 * k) mod 251
       = (7 * 225 + hashToInt Toy.digest Toy.Curve251) mod 251.
Proof.
  destruct (SignECDSA_equation Toy.ModInverse Toy_ModInverse_ok
              10 Toy.ecdsa_key Toy.digest Toy.alg _ Toy_SignECDSA_run)
    as (k & xk & r & s & Hk & Ex & Er & Es & _ & Hr & Hs).
  simpl in Er, Es. injection Er as <-. injection Es as <-.
  exists k, xk. auto.
Defined.

Lemma SignECDSA_small_order_witness :
  SignECDSA Toy.ModInverse 20
    {| PublicKey_Curve := Toy.Curve7;
       PublicKey_X := 4; PublicKey_Y := 1; D := 5 |}
    Toy.digest Toy.alg
  = (Unfinished, {| sig_r := None; sig_s := None; sig_err := None |}).
Proof.
  apply (SignECDSA_small_order Toy.ModInverse 20
           {| PublicKey_Curve := Toy.Curve7;
              PublicKey_X := 4; PublicKey_Y := 1; D := 5 |}
           Toy.digest Toy.alg).
  reflexivity.
Defined.
